(** * get-container-id: identifier resolution, verified against the Go source

    A shallow embedding of the identifier-resolution core of
    [ming-go/get-container-id]:

    - [podid.Get], the memoizing resolver of package [podid]
      (src/podid/podid.go);
    - [podid.GetFromFile], the mount-table line scanner, together with the
      parts of the Go standard library it runs on ([os.Open], [bufio.Scanner]
      with [bufio.ScanLines], [regexp.FindStringSubmatch]);
    - [getContainerID] of package [main] (src/main.go), the two-tier
      container strategy, together with [strings.TrimSpace], [strings.Split]
      and [strings.Replacer].

    Go values are modelled as follows.  A Go [string] is a [string] (a
    sequence of 8-bit characters), a [[]byte] is a [list ascii], a Go [int]
    is a [Z].  A Go function returning [(string, error)] returns a pair
    [string * option error], [None] standing for the [nil] error.  Code that
    reads or writes package variables is written in a state monad whose
    computations may fail to return ([None]): a blocked lock, a run-time
    panic, or a provider that never comes back. *)

From Stdlib Require Import List String Ascii ZArith Bool Arith Lia.
Import ListNotations.

Set Implicit Arguments.

(* ================================================================== *)
(** * Part I: the program                                              *)
(* ================================================================== *)

(** ** Errors *)

(** [*fs.PathError]: what [os.Open] and reads of an [*os.File] fail with. *)
Record PathError : Type := mkPathError {
  Op : string;
  Path : string;
  Errno : string
}.

(** The [error] values that occur in the program.  The first two are the
    sentinels declared with [errors.New] in packages [podid] and [main];
    [EOF] and [ErrNoProgress] are the sentinels [io.EOF] and
    [io.ErrNoProgress]; [ErrTooLong], [ErrNegativeAdvance], [ErrAdvanceTooFar]
    and [ErrBadReadCount] are those of package [bufio]; [ErrPath] is an
    error of the operating system; [ErrNew msg] is any other
    [errors.New(msg)]; [ErrorfW msg e] is [fmt.Errorf(msg + ": %w", e)],
    which wraps [e]. *)
Inductive error : Type :=
| ErrPodIDNotFound
| ErrContainerIDNotFound
| EOF
| ErrTooLong
| ErrNoProgress
| ErrNegativeAdvance
| ErrAdvanceTooFar
| ErrBadReadCount
| ErrPath (e : PathError)
| ErrNew (msg : string)
| ErrorfW (msg : string) (inner : error).

Definition PathError_eq_dec (a b : PathError) : {a = b} + {a <> b}.
Proof. decide equality; apply string_dec. Defined.

Definition error_eq_dec (a b : error) : {a = b} + {a <> b}.
Proof. decide equality; try apply string_dec; apply PathError_eq_dec. Defined.

Definition error_eqb (a b : error) : bool :=
  if error_eq_dec a b then true else false.

Module errors.

(** [errors.Unwrap]. *)
Definition Unwrap (e : error) : option error :=
  match e with
  | ErrorfW _ inner => Some inner
  | _ => None
  end.

(** [errors.Is]: [target] is [err] or occurs in the chain of errors that
    [err] wraps. *)
Fixpoint Is (err target : error) : bool :=
  error_eqb err target ||
  match err with
  | ErrorfW _ inner => Is inner target
  | _ => false
  end.

End errors.

(** A Go result [(string, error)]. *)
Definition result : Type := string * option error.

(** ** The monad of code that touches package state *)

Definition M (St A : Type) : Type := St -> option (A * St).

Definition ret {St A} (a : A) : M St A := fun s => Some (a, s).

Definition bind {St A B} (c : M St A) (k : A -> M St B) : M St B :=
  fun s =>
    match c s with
    | Some (a, s') => k a s'
    | None => None
    end.

Definition gets {St A} (f : St -> A) : M St A := fun s => Some (f s, s).

Definition modify {St} (f : St -> St) : M St unit := fun s => Some (tt, f s).

(** A computation that does not return. *)
Definition stuck {St A} : M St A := fun _ => None.

Declare Scope go_scope.
Delimit Scope go_scope with go.
Notation "x <- c ;; k" := (bind c (fun x => k))
  (at level 61, c at next level, right associativity) : go_scope.
Notation "c ;;; k" := (bind c (fun _ => k))
  (at level 61, right associativity) : go_scope.

(** ** Package sync: RWMutex *)

Module sync.

Record RWMutex : Type := mkRWMutex {
  readers : nat;
  writer : bool
}.

(** The zero value: an unlocked mutex. *)
Definition zero : RWMutex := mkRWMutex 0 false.

(** [RLock] blocks while a writer holds the lock. *)
Definition RLock (m : RWMutex) : option RWMutex :=
  if writer m then None else Some (mkRWMutex (S (readers m)) false).

(** [RUnlock] of a mutex that is not read-locked is a fatal error. *)
Definition RUnlock (m : RWMutex) : option RWMutex :=
  match readers m with
  | O => None
  | S n => Some (mkRWMutex n (writer m))
  end.

(** [Lock] blocks while the lock is held by anyone. *)
Definition Lock (m : RWMutex) : option RWMutex :=
  if writer m then None
  else match readers m with
       | O => Some (mkRWMutex 0 true)
       | S _ => None
       end.

(** [Unlock] of a mutex that is not write-locked is a fatal error. *)
Definition Unlock (m : RWMutex) : option RWMutex :=
  if writer m then Some (mkRWMutex (readers m) false) else None.

End sync.

(** ** Byte slices *)

(** [len(b)] as a Go [int]. *)
Definition len (b : list ascii) : Z := Z.of_nat (List.length b).

(** [b[0:n]] and [b[n:]], for [n] within bounds. *)
Fixpoint takeZ (n : Z) (b : list ascii) : list ascii :=
  match b with
  | [] => []
  | x :: b' => if (n <=? 0)%Z then [] else x :: takeZ (n - 1) b'
  end.

Fixpoint dropZ (n : Z) (b : list ascii) : list ascii :=
  match b with
  | [] => []
  | x :: b' => if (n <=? 0)%Z then b else dropZ (n - 1) b'
  end.

Definition is_some {A} (o : option A) : bool :=
  match o with Some _ => true | None => false end.

(** ** Package os: files *)

Module os.

(** A file as the process finds it: [contents] are the bytes that reads
    deliver; a read system call issued when [n] bytes are still unread
    delivers at most [chunk n] of them, and at least one; once the bytes are
    exhausted a read reports [read_err], or end of file when there is
    none. *)
Record File : Type := mkFile {
  contents : list ascii;
  chunk : nat -> positive;
  read_err : option PathError
}.

(** The file system: what opening a path yields. *)
Definition FS : Type := string -> PathError + File.

(** An open [*os.File], read sequentially. *)
Record Handle : Type := mkHandle {
  unread : list ascii;
  hchunk : nat -> positive;
  herr : option PathError
}.

(** [os.Open]. *)
Definition Open (fs : FS) (path : string) : error + Handle :=
  match fs path with
  | inl e => inl (ErrPath e)
  | inr f => inr (mkHandle (contents f) (chunk f) (read_err f))
  end.

(** [File.Read] into a slice of [n] bytes: the bytes read, the error,
    and the handle afterwards. *)
Definition Read (n : Z) (h : Handle) : (list ascii * option error) * Handle :=
  if (n <=? 0)%Z then (([], None), h)
  else match unread h with
       | [] => (([], Some (match herr h with
                           | Some e => ErrPath e
                           | None => EOF
                           end)), h)
       | _ :: _ =>
           let k := Z.min n (Z.pos (hchunk h (List.length (unread h)))) in
           ((takeZ k (unread h), None),
            mkHandle (dropZ k (unread h)) (hchunk h) (herr h))
       end.

(** [os.ReadFile]: the whole contents, or the error of the open or of the
    failing read. *)
Definition ReadFile (fs : FS) (path : string) : error + list ascii :=
  match fs path with
  | inl e => inl (ErrPath e)
  | inr f => match read_err f with
             | Some e => inl (ErrPath e)
             | None => inr (contents f)
             end
  end.

End os.

(** ** Package bufio: Scanner with the ScanLines split function *)

Module bufio.

Definition MaxScanTokenSize : Z := 64 * 1024.
Definition startBufSize : Z := 4096.
Definition maxInt : Z := 2 ^ 63 - 1.
Definition CR : ascii := ascii_of_nat 13.
Definition LF : ascii := ascii_of_nat 10.

(** [bytes.IndexByte]: the index of the first [c] in [b], or [-1]. *)
Fixpoint IndexByte (b : list ascii) (c : ascii) : Z :=
  match b with
  | [] => -1
  | x :: b' =>
      if Ascii.eqb x c then 0
      else let i := IndexByte b' c in
           if (i <? 0)%Z then -1 else (i + 1)%Z
  end.

(** [dropCR] drops a terminal carriage return from the data. *)
Definition dropCR (data : list ascii) : list ascii :=
  if ((0 <? len data)%Z && Ascii.eqb (last data Ascii.zero) CR)%bool
  then removelast data
  else data.

(** [ScanLines data atEOF]: how far to advance and the token, [None] being
    the [nil] token of a request for more data.  The error it returns is
    always [nil]. *)
Definition ScanLines (data : list ascii) (atEOF : bool)
  : Z * option (list ascii) :=
  if (atEOF && (len data =? 0)%Z)%bool then (0%Z, None)
  else
    let i := IndexByte data LF in
    if (0 <=? i)%Z then ((i + 1)%Z, Some (dropCR (takeZ i data)))
    else if atEOF then (len data, Some (dropCR data))
    else (0%Z, None).

(** The scanner.  Of the buffer [s.buf] the model keeps its length
    [buf_len] and the bytes [pending] between [s.start] and [s.end], the
    only ones that are ever read; [s.end] is [start + len pending].  The
    fields [empties] and [done] are left out: [ScanLines] never returns a
    token without advancing, nor [ErrFinalToken].  [scans] counts the calls
    of [Scan]; the program does not have it. *)
Record Scanner : Type := mkScanner {
  r : os.Handle;
  maxTokenSize : Z;
  token : list ascii;
  buf_len : Z;
  start : Z;
  pending : list ascii;
  err : option error;
  scans : nat
}.

Definition end_ (s : Scanner) : Z := (start s + len (pending s))%Z.

Definition set_r (h : os.Handle) (s : Scanner) : Scanner :=
  mkScanner h (maxTokenSize s) (token s) (buf_len s) (start s) (pending s)
            (err s) (scans s).
Definition set_token (t : list ascii) (s : Scanner) : Scanner :=
  mkScanner (r s) (maxTokenSize s) t (buf_len s) (start s) (pending s)
            (err s) (scans s).
Definition set_buf_len (n : Z) (s : Scanner) : Scanner :=
  mkScanner (r s) (maxTokenSize s) (token s) n (start s) (pending s)
            (err s) (scans s).
Definition set_start (n : Z) (s : Scanner) : Scanner :=
  mkScanner (r s) (maxTokenSize s) (token s) (buf_len s) n (pending s)
            (err s) (scans s).
Definition set_pending (p : list ascii) (s : Scanner) : Scanner :=
  mkScanner (r s) (maxTokenSize s) (token s) (buf_len s) (start s) p
            (err s) (scans s).
Definition set_err (e : option error) (s : Scanner) : Scanner :=
  mkScanner (r s) (maxTokenSize s) (token s) (buf_len s) (start s) (pending s)
            e (scans s).
Definition set_scans (n : nat) (s : Scanner) : Scanner :=
  mkScanner (r s) (maxTokenSize s) (token s) (buf_len s) (start s) (pending s)
            (err s) n.

(** [NewScanner]: no buffer yet. *)
Definition NewScanner (h : os.Handle) : Scanner :=
  mkScanner h MaxScanTokenSize [] 0 0 [] None 0.

(** [s.Buffer(buf, max)] with [cap(buf) = capacity]: the whole capacity of
    [buf] becomes the buffer. *)
Definition Buffer (capacity max : Z) (s : Scanner) : Scanner :=
  mkScanner (r s) max (token s) capacity (start s) (pending s) (err s)
            (scans s).

(** [setErr] records the first error that is not [io.EOF]. *)
Definition setErr (e : error) (s : Scanner) : Scanner :=
  match err s with
  | None | Some EOF => set_err (Some e) s
  | Some _ => s
  end.

(** [advance n]: [inr] when it returns true. *)
Definition advance (n : Z) (s : Scanner) : Scanner + Scanner :=
  if (n <? 0)%Z then inl (setErr ErrNegativeAdvance s)
  else if (end_ s - start s <? n)%Z then inl (setErr ErrAdvanceTooFar s)
  else inr (set_pending (dropZ n (pending s)) (set_start (start s + n) s)).

(** What one turn of the loop of [Scan] does. *)
Inductive turn : Type :=
| Return (b : bool) (s : Scanner)
| Again (s : Scanner).

(** First part of the loop body: see whether the buffered data hold a
    token. *)
Definition split_pending (s : Scanner) : turn :=
  if ((start s <? end_ s)%Z || is_some (err s))%bool then
    let '(adv, tok) := ScanLines (pending s) (is_some (err s)) in
    match advance adv s with
    | inl s' => Return false s'
    | inr s' =>
        match tok with
        | Some t => Return true (set_token t s')
        | None => Again (set_token [] s')
        end
    end
  else Again s.

(** Shift the data to the beginning of the buffer when space is needed or
    much of it is unused. *)
Definition shift (s : Scanner) : Scanner :=
  if ((0 <? start s)%Z &&
      ((end_ s =? buf_len s)%Z || (buf_len s / 2 <? start s)%Z))%bool
  then set_start 0 s
  else s.

(** Resize a full buffer: [inl] when the token is too long. *)
Definition grow (s : Scanner) : Scanner + Scanner :=
  if (end_ s =? buf_len s)%Z then
    if ((maxTokenSize s <=? buf_len s)%Z || (maxInt / 2 <? buf_len s)%Z)%bool
    then inl (setErr ErrTooLong s)
    else
      let newSize := (buf_len s * 2)%Z in
      let newSize := if (newSize =? 0)%Z then startBufSize else newSize in
      let newSize := Z.min newSize (maxTokenSize s) in
      inr (set_start 0 (set_buf_len newSize s))
  else inr s.

(** Read into the free end of the buffer.  The reader of the model is
    deterministic: when it returns no byte and no error once, so it does in
    each of the hundred retries, and the scanner gives up. *)
Definition fill (s : Scanner) : Scanner :=
  let space := (buf_len s - end_ s)%Z in
  let '((data, e), h) := os.Read space (r s) in
  let n := len data in
  if ((n <? 0)%Z || (space <? n)%Z)%bool then setErr ErrBadReadCount (set_r h s)
  else
    let s' := set_pending (pending s ++ data) (set_r h s) in
    match e with
    | Some e => setErr e s'
    | None => if (0 <? n)%Z then s' else setErr ErrNoProgress s'
    end.

(** One turn of the loop of [Scan]. *)
Definition Scan_turn (s : Scanner) : turn :=
  match split_pending s with
  | Return b s' => Return b s'
  | Again s1 =>
      if is_some (err s1) then Return false (set_pending [] (set_start 0 s1))
      else
        match grow (shift s1) with
        | inl s2 => Return false s2
        | inr s2 => Again (fill s2)
        end
  end.

Fixpoint Scan_loop (fuel : nat) (s : Scanner) : option (bool * Scanner) :=
  match fuel with
  | O => None
  | S fuel' =>
      match Scan_turn s with
      | Return b s' => Some (b, s')
      | Again s' => Scan_loop fuel' s'
      end
  end.

(** [Scan]: every turn that does not return either takes a byte from the
    file or records an error, so two turns more than there are unread bytes
    are always enough ([Scan_returns]). *)
Definition Scan (s : Scanner) : option (bool * Scanner) :=
  Scan_loop (List.length (os.unread (r s)) + 2) (set_scans (S (scans s)) s).

(** [Text]: the token as a string. *)
Definition Text (s : Scanner) : string := string_of_list_ascii (token s).

(** [Err]: the first error that is not [io.EOF]. *)
Definition Err (s : Scanner) : option error :=
  match err s with
  | Some EOF => None
  | e => e
  end.

End bufio.

(** ** Package regexp *)

Module regexp.

(** The syntax of the patterns of this repository: literal text, the class
    [[0-9a-f]] repeated a fixed number of times, concatenation and
    capturing groups. *)
Inductive Regexp : Type :=
| Literal (s : string)
| LowerHex (n : nat)
| Concat (r1 r2 : Regexp)
| Capture (re : Regexp).

(** The class [[0-9a-f]]. *)
Definition lower_hex (c : ascii) : bool :=
  let n := nat_of_ascii c in
  ((48 <=? n) && (n <=? 57) || (97 <=? n) && (n <=? 102))%bool.

(** [strip_prefix p s]: what follows [p] in [s], when [s] starts with [p]. *)
Fixpoint strip_prefix (p s : string) : option string :=
  match p, s with
  | EmptyString, _ => Some s
  | String a p', String b s' =>
      if Ascii.eqb a b then strip_prefix p' s' else None
  | String _ _, EmptyString => None
  end.

(** [take_class n s]: the [n] characters of the class that [s] starts with,
    and what follows them. *)
Fixpoint take_class (n : nat) (s : string) : option (string * string) :=
  match n with
  | O => Some (EmptyString, s)
  | S n' =>
      match s with
      | String c s' =>
          if lower_hex c then
            match take_class n' s' with
            | Some (m, rest) => Some (String c m, rest)
            | None => None
            end
          else None
      | EmptyString => None
      end
  end.

(** A match of [re] at the beginning of [s]: the text matched, what follows
    it, and the texts of the capturing groups in order.  Every pattern of
    this syntax matches a text in at most one way. *)
Fixpoint match_here (re : Regexp) (s : string)
  : option (string * string * list string) :=
  match re with
  | Literal l =>
      match strip_prefix l s with
      | Some rest => Some (l, rest, [])
      | None => None
      end
  | LowerHex n =>
      match take_class n s with
      | Some (m, rest) => Some (m, rest, [])
      | None => None
      end
  | Concat r1 r2 =>
      match match_here r1 s with
      | Some (m1, s1, c1) =>
          match match_here r2 s1 with
          | Some (m2, s2, c2) => Some (String.append m1 m2, s2, c1 ++ c2)
          | None => None
          end
      | None => None
      end
  | Capture re' =>
      match match_here re' s with
      | Some (m, rest, c) => Some (m, rest, m :: c)
      | None => None
      end
  end.

(** [re.FindStringSubmatch(s)]: the leftmost match of [re] in [s] followed
    by the texts of its capturing groups, or the [nil] slice. *)
Fixpoint FindStringSubmatch (re : Regexp) (s : string) : list string :=
  match match_here re s with
  | Some (m, _, caps) => m :: caps
  | None =>
      match s with
      | EmptyString => []
      | String _ s' => FindStringSubmatch re s'
      end
  end.

End regexp.

(** ** Package strings *)

Module strings.

Definition byte (n : nat) : ascii := ascii_of_nat n.

(** The UTF-8 encodings of the runes for which [unicode.IsSpace] holds:
    tab, line feed, vertical tab, form feed, carriage return, space,
    U+0085, U+00A0, U+1680, U+2000 to U+200A, U+2028, U+2029, U+202F, U+205F
    and U+3000. *)
Definition space_runes : list (list ascii) :=
  [ [byte 9]; [byte 10]; [byte 11]; [byte 12]; [byte 13]; [byte 32];
    [byte 194; byte 133]; [byte 194; byte 160];
    [byte 225; byte 154; byte 128];
    [byte 226; byte 128; byte 128]; [byte 226; byte 128; byte 129];
    [byte 226; byte 128; byte 130]; [byte 226; byte 128; byte 131];
    [byte 226; byte 128; byte 132]; [byte 226; byte 128; byte 133];
    [byte 226; byte 128; byte 134]; [byte 226; byte 128; byte 135];
    [byte 226; byte 128; byte 136]; [byte 226; byte 128; byte 137];
    [byte 226; byte 128; byte 138];
    [byte 226; byte 128; byte 168]; [byte 226; byte 128; byte 169];
    [byte 226; byte 128; byte 175];
    [byte 226; byte 129; byte 159];
    [byte 227; byte 128; byte 128] ].

Fixpoint strip (p b : list ascii) : option (list ascii) :=
  match p, b with
  | [], _ => Some b
  | x :: p', y :: b' => if Ascii.eqb x y then strip p' b' else None
  | _ :: _, [] => None
  end.

(** What follows the first of the [runes] that [b] starts with. *)
Fixpoint strip_any (runes : list (list ascii)) (b : list ascii)
  : option (list ascii) :=
  match runes with
  | [] => None
  | p :: runes' =>
      match strip p b with
      | Some b' => Some b'
      | None => strip_any runes' b
      end
  end.

(** Drop leading [runes] for as long as there are any; each turn drops at
    least one byte, so [length b] turns are enough. *)
Fixpoint trim_left (fuel : nat) (runes : list (list ascii)) (b : list ascii)
  : list ascii :=
  match fuel with
  | O => b
  | S fuel' =>
      match strip_any runes b with
      | Some b' => trim_left fuel' runes b'
      | None => b
      end
  end.

(** [strings.TrimSpace]: the string without its leading and trailing white
    space, as Unicode defines it.  The trailing runes are found on the
    reversed bytes. *)
Definition TrimSpace (s : string) : string :=
  let b := list_ascii_of_string s in
  let b1 := trim_left (List.length b) space_runes b in
  let b2 := trim_left (List.length b1) (map (@rev ascii) space_runes) (rev b1) in
  string_of_list_ascii (rev b2).

(** [strings.Split(s, sep)] for a separator [sep] of one byte: the
    substrings between the separators, at least one. *)
Fixpoint Split (s : string) (sep : ascii) : list string :=
  match s with
  | EmptyString => [EmptyString]
  | String c s' =>
      if Ascii.eqb c sep then EmptyString :: Split s' sep
      else match Split s' sep with
           | seg :: segs => String c seg :: segs
           | [] => [String c EmptyString]
           end
  end.

(** [strings.Join(elems, sep)]. *)
Fixpoint Join (elems : list string) (sep : string) : string :=
  match elems with
  | [] => EmptyString
  | [a] => a
  | a :: rest => String.append a (String.append sep (Join rest sep))
  end.

(** A [*strings.Replacer] made of one pair: a byte and its replacement. *)
Record Replacer : Type := NewReplacer {
  old : ascii;
  new : string
}.

(** [r.Replace(s)]. *)
Fixpoint Replace (r : Replacer) (s : string) : string :=
  match s with
  | EmptyString => EmptyString
  | String c s' =>
      if Ascii.eqb c (old r) then String.append (new r) (Replace r s')
      else String c (Replace r s')
  end.

End strings.

(** ** Package podid (src/podid/podid.go) *)

Module podid.

Import regexp.

Definition MountInfoPath : string := "/proc/self/mountinfo".

(** [regexp.MustCompile] of
    [/pods/([0-9a-f]{8}-[0-9a-f]{4}-[0-9a-f]{4}-[0-9a-f]{4}-[0-9a-f]{12})/]. *)
Definition podIDRegex : Regexp :=
  Concat (Literal "/pods/")
    (Concat
       (Capture
          (Concat (LowerHex 8) (Concat (Literal "-")
          (Concat (LowerHex 4) (Concat (Literal "-")
          (Concat (LowerHex 4) (Concat (Literal "-")
          (Concat (LowerHex 4) (Concat (Literal "-")
          (LowerHex 12))))))))))
       (Literal "/")).

(** The loop of [GetFromFile] over the lines of the scanner, and what
    follows it.  The scanner it leaves behind is returned with the result.
    Every line but the last empties some of the file, so the loop is given
    as many turns as there are bytes, and two more. *)
Fixpoint scan (fuel : nat) (path : string) (scanner : bufio.Scanner)
  : option (result * bufio.Scanner) :=
  match fuel with
  | O => None
  | S fuel' =>
      match bufio.Scan scanner with
      | None => None
      | Some (true, scanner') =>
          let line := bufio.Text scanner' in
          let match_ := FindStringSubmatch podIDRegex line in
          if List.length match_ =? 2
          then Some ((nth 1 match_ EmptyString, None), scanner')
          else scan fuel' path scanner'
      | Some (false, scanner') =>
          match bufio.Err scanner' with
          | Some e =>
              Some ((EmptyString,
                     Some (ErrorfW (String.append "error reading " path) e)),
                    scanner')
          | None => Some ((EmptyString, Some ErrPodIDNotFound), scanner')
          end
      end
  end.

(** [GetFromFile] together with the scanner as it is when the function
    returns, if the file was opened. *)
Definition GetFromFile_scanner (fs : os.FS) (path : string)
  : option (result * option bufio.Scanner) :=
  match os.Open fs path with
  | inl e =>
      Some ((EmptyString,
             Some (ErrorfW (String.append "failed to open " path) e)), None)
  | inr file =>
      let scanner := bufio.NewScanner file in
      let scanner := bufio.Buffer (64 * 1024) (1024 * 1024) scanner in
      match scan (List.length (os.unread file) + 2) path scanner with
      | Some (res, scanner') => Some (res, Some scanner')
      | None => None
      end
  end.

(** [GetFromFile]. *)
Definition GetFromFile (fs : os.FS) (path : string) : option result :=
  match GetFromFile_scanner fs path with
  | Some (res, _) => Some res
  | None => None
  end.

(** A provider is a Go function [func() (string, error)]: it may read and
    change its environment, and it may fail to return. *)
Definition Provider (Env : Type) : Type := M Env result.

(** [getPodIDFromMountInfo], a provider whose environment is the file
    system. *)
Definition getPodIDFromMountInfo : Provider os.FS :=
  fun fs =>
    match GetFromFile fs MountInfoPath with
    | Some res => Some (res, fs)
    | None => None
    end.

(** The package variables [cachedID], [hasID], [mu] and [getPodIDFunc],
    the environment [env] of the provider, and the number [calls] of
    invocations of the provider so far, which the program does not have. *)
Record State (Env : Type) : Type := mkState {
  cachedID : string;
  hasID : bool;
  mu : sync.RWMutex;
  getPodIDFunc : Provider Env;
  env : Env;
  calls : nat
}.

Section Get.

Context {Env : Type}.

Local Open Scope go_scope.

Definition set_mu (m : sync.RWMutex) (w : State Env) : State Env :=
  mkState (cachedID w) (hasID w) m (getPodIDFunc w) (env w) (calls w).

Definition set_cachedID (id : string) (w : State Env) : State Env :=
  mkState id (hasID w) (mu w) (getPodIDFunc w) (env w) (calls w).

Definition set_hasID (b : bool) (w : State Env) : State Env :=
  mkState (cachedID w) b (mu w) (getPodIDFunc w) (env w) (calls w).

(** Assigning the package variable [getPodIDFunc], as the tests do. *)
Definition inject (f : Provider Env) (w : State Env) : State Env :=
  mkState (cachedID w) (hasID w) (mu w) f (env w) (calls w).

(** An operation of [mu]. *)
Definition locking (op : sync.RWMutex -> option sync.RWMutex)
  : M (State Env) unit :=
  fun w =>
    match op (mu w) with
    | Some m => Some (tt, set_mu m w)
    | None => None
    end.

(** The call [getPodIDFunc()]. *)
Definition call_getPodIDFunc : M (State Env) result :=
  fun w =>
    match getPodIDFunc w (env w) with
    | Some (res, env') =>
        Some (res, mkState (cachedID w) (hasID w) (mu w) (getPodIDFunc w)
                           env' (S (calls w)))
    | None => None
    end.

(** [Get]. *)
Definition Get : M (State Env) result :=
  locking sync.RLock ;;;
  has <- gets (@hasID Env) ;;
  if has : bool then
    id <- gets (@cachedID Env) ;;
    locking sync.RUnlock ;;;
    ret (id, None)
  else
    locking sync.RUnlock ;;;
    res <- call_getPodIDFunc ;;
    let '(id, err) := res in
    match err with
    | Some e => ret (EmptyString, Some e)
    | None =>
        locking sync.Lock ;;;
        modify (set_cachedID id) ;;;
        modify (set_hasID true) ;;;
        locking sync.Unlock ;;;
        ret (id, None)
    end.

(** [IsInPod]. *)
Definition IsInPod : M (State Env) bool :=
  fun w =>
    match Get w with
    | Some ((id, err), w') =>
        Some ((negb (is_some err) && negb (String.eqb id EmptyString))%bool, w')
    | None => None
    end.

(** [MustGet] panics when [Get] returns an error. *)
Definition MustGet : M (State Env) string :=
  res <- Get ;;
  match snd res with
  | Some _ => stuck
  | None => ret (fst res)
  end.

(** The package as it is when the process starts, or after the tests reset
    it, with [f] for provider. *)
Definition initial (f : Provider Env) (e : Env) : State Env :=
  mkState EmptyString false sync.zero f e 0.

(** Successive calls of [Get], the provider being assigned anew before each
    of them. *)
Fixpoint Gets (fs : list (Provider Env)) : M (State Env) (list result) :=
  match fs with
  | [] => ret []
  | f :: fs' =>
      modify (inject f) ;;;
      res <- Get ;;
      rest <- Gets fs' ;;
      ret (res :: rest)
  end.

End Get.

End podid.

(** ** Package main (src/main.go) *)

Module main.

Definition replacer : strings.Replacer :=
  strings.NewReplacer bufio.LF EmptyString.

Definition cpusetPath : string := "/proc/self/cpuset".

Section getContainerID.

(** Package [containerid] is not part of the sources at hand: its state and
    its function [Get] are parameters. *)
Variable Cid : Type.
Variable containerid_Get : M Cid result.

(** What [getContainerID] depends on: the file system, the state of package
    [containerid], and the number of calls of [containerid.Get] so far, which
    the program does not have. *)
Record World : Type := mkWorld {
  fs : os.FS;
  containerid : Cid;
  fallbacks : nat
}.

Definition call_containerid_Get : M World result :=
  fun w =>
    match containerid_Get (containerid w) with
    | Some (res, c') => Some (res, mkWorld (fs w) c' (S (fallbacks w)))
    | None => None
    end.

Local Open Scope go_scope.

(** [getContainerID].  Indexing the slice [cpusetSplit] out of range would
    panic. *)
Definition getContainerID : M World result :=
  file <- gets (fun w => os.ReadFile (fs w) cpusetPath) ;;
  match file with
  | inl err => ret (EmptyString, Some err)
  | inr b =>
      let cpuset := string_of_list_ascii b in
      if negb (String.eqb (strings.TrimSpace cpuset) "/") then
        let cpusetSplit := strings.Split cpuset "/"%char in
        match nth_error cpusetSplit (List.length cpusetSplit - 1) with
        | Some seg => ret (strings.Replace replacer seg, None)
        | None => stuck
        end
      else
        res <- call_containerid_Get ;;
        let '(id, err) := res in
        if String.eqb id EmptyString
        then ret (EmptyString, Some ErrContainerIDNotFound)
        else ret (id, None)
  end.

End getContainerID.

End main.

(** ** Fixtures of the tests (src/podid/podid_test.go) *)

Module fixtures.

Import podid.

(** The provider of [TestGetCachesSuccessfulResult]: it counts its calls in
    its environment and always succeeds. *)
Definition counting (want : string) : Provider nat :=
  fun n => Some ((want, None), S n).

(** The provider of [TestGetDoesNotCacheFailure]: its first call fails. *)
Definition flaky (want : string) : Provider nat :=
  fun n =>
    let n := S n in
    if n =? 1 then Some ((EmptyString, Some ErrPodIDNotFound), n)
    else Some ((want, None), n).

Definition want1 : string := "12345678-90ab-cdef-1234-567890abcdef".
Definition want2 : string := "fedcba98-7654-3210-fedc-ba9876543210".

(** The package after [resetTestState]. *)
Definition reset : State nat := initial (counting want1) 0.

(** The package after one successful call with that provider. *)
Definition warm : State nat :=
  mkState want1 true sync.zero (counting want1) 1 1.

End fixtures.

(** ** Vocabulary of the specification and inputs for [getContainerID] *)

(** A line feed as a string. *)
Definition nl : string := String bufio.LF EmptyString.

(** In the words of the specification: split the content on [/] and take
    the last non-empty segment (the empty string when there is none). *)
Definition last_nonempty_segment (c : string) : string :=
  last (filter (fun seg => negb (String.eqb seg EmptyString))
               (strings.Split c "/"%char))
       EmptyString.

Module inputs.

Definition bytes (s : string) : list ascii := list_ascii_of_string s.

(** The file of bytes [c] that is read at most [ch] bytes at a time and
    without error. *)
Definition file_of (c : list ascii) (ch : positive) : os.File :=
  os.mkFile c (fun _ => ch) None.

(** A file system in which [path] holds the bytes [c], read at most [ch]
    at a time, and nothing else exists. *)
Definition file_is (path : string) (c : list ascii) (ch : positive) : os.FS :=
  fun p =>
    if String.eqb p path then inr (file_of c ch)
    else inl (mkPathError "open" p "no such file or directory").

(** A file system in which [/proc/self/cpuset] holds [c] and nothing else
    exists. *)
Definition cpuset_is (c : string) : os.FS :=
  file_is main.cpusetPath (bytes c) 4096.

(** What [containerid.Get] may return when the mount table cannot be
    opened. *)
Definition mountinfo_denied : error :=
  ErrorfW "failed to open /proc/self/mountinfo"
    (ErrPath (mkPathError "open" "/proc/self/mountinfo" "permission denied")).

Definition denied_fallback : M unit result :=
  fun c => Some ((EmptyString, Some mountinfo_denied), c).

Definition uuid1 : string := "036da4f7-d553-4eb6-9802-90f81041a412".
Definition uuid2 : string := "0f8fad5b-d9cb-469f-a165-70867728950e".

(** Lines of a mount table: the [etc-hosts] mount of a pod, a volume of a
    pod, and a mount that belongs to no pod. *)
Definition hosts_line (u : string) : string :=
  String.append "29 37 0:25 / /var/lib/kubelet/pods/"
    (String.append u "/etc-hosts rw,relatime - tmpfs tmpfs rw").


Definition other_line : string :=
  "15 29 0:40 / /var/lib/containers/abc rw - tmpfs tmpfs rw".

(** The content of [/proc/self/cpuset] in a container under cgroup v1. *)
Definition docker_cpuset : string :=
  String.append
    "/docker/4f2a9c1e7b3d5a6f8e0c1d2b3a4f5e6d7c8b9a0f1e2d3c4b5a6f7e8d9c0b1a2f"
    nl.

(** A mount table with the [etc-hosts] mount of one pod. *)
Definition one_pod : list ascii :=
  bytes (String.append other_line (String.append nl
        (String.append (hosts_line uuid1) nl))).

(** The file of [TestGetFromFileNoMatch]. *)
Definition no_pod : list ascii := bytes (String.append other_line nl).


(** The line of [TestGetFromFileHandlesLongLines]: 70 KiB of padding after
    the path. *)
Definition long_line : list ascii :=
  bytes (String.append "29 37 0:25 / /var/lib/kubelet/pods/"
           (String.append uuid2 "/etc-hosts")) ++
  repeat "a"%char (70 * 1024) ++
  bytes " rw,relatime - tmpfs tmpfs rw".

End inputs.

(** ** Vocabulary of the specification for [podid.GetFromFile] *)

(** The cap that [GetFromFile] gives to [scanner.Buffer]. *)
Definition line_cap : Z := 1024 * 1024.

(** The runs of bytes between line feeds; what follows the last line feed
    is a line unless it is empty. *)
Fixpoint raw_lines (b : list ascii) : list (list ascii) :=
  match b with
  | [] => []
  | c :: b' =>
      if Ascii.eqb c bufio.LF then [] :: raw_lines b'
      else match raw_lines b' with
           | [] => [[c]]
           | l :: ls => (c :: l) :: ls
           end
  end.

(** The lines up to the first one that is as long as the cap. *)
Fixpoint within_cap (ls : list (list ascii)) : list (list ascii) :=
  match ls with
  | [] => []
  | l :: ls' => if (len l <? line_cap)%Z then l :: within_cap ls' else []
  end.

(** The text of a line: its bytes without the terminal carriage return. *)
Definition text (l : list ascii) : string :=
  string_of_list_ascii (bufio.dropCR l).

(** The lines of a file as the scanner of [GetFromFile] delivers them. *)
Definition lines (b : list ascii) : list string :=
  map text (within_cap (raw_lines b)).

(** A file that can be read to its end: no read fails and every line is
    within the cap. *)
Definition read_completely (f : os.File) : Prop :=
  os.read_err f = None /\
  Forall (fun l => (len l < line_cap)%Z) (raw_lines (os.contents f)).

(** One of the sixteen lowercase hexadecimal digits. *)
Definition hex_digit (c : ascii) : bool :=
  existsb (Ascii.eqb c) (list_ascii_of_string "0123456789abcdef").

Definition hex_group (n : nat) (g : string) : bool :=
  ((String.length g =? n) && forallb hex_digit (list_ascii_of_string g))%bool.

(** The textual form of a UUID: groups of 8, 4, 4, 4 and 12 lowercase
    hexadecimal digits separated by hyphens. *)
Definition is_uuid (u : string) : bool :=
  match strings.Split u "-"%char with
  | [g1; g2; g3; g4; g5] =>
      (hex_group 8 g1 && hex_group 4 g2 && hex_group 4 g3 &&
       hex_group 4 g4 && hex_group 12 g5)%bool
  | _ => false
  end.

(** A group of [n] characters of the class of the pattern. *)
Definition digits (n : nat) (g : string) : Prop :=
  String.length g = n /\
  forallb regexp.lower_hex (list_ascii_of_string g) = true.

(** The pod pattern occurs in [line] at offset [k] with the UUID [u]. *)
Definition pod_at (line : string) (k : nat) (u : string) : Prop :=
  is_uuid u = true /\
  exists pre post,
    String.length pre = k /\
    line = String.append pre
             (String.append "/pods/" (String.append u (String.append "/" post))).

(** The line matches the pod pattern. *)
Definition matches_pod (line : string) : Prop :=
  exists k u, pod_at line k u.

(** [u] is the UUID of the leftmost occurrence of the pod pattern in
    [line]. *)
Definition first_pod (line : string) (u : string) : Prop :=
  exists k, pod_at line k u /\ forall k' u', pod_at line k' u' -> k <= k'.


(** What [GetFromFile] is to return over the lines still to be scanned, and
    after how many calls of [Scan]; [final] is the error of the read that
    ends the file, if any. *)
Fixpoint scan_spec (path : string) (final : option error)
    (ls : list (list ascii)) : result * nat :=
  match ls with
  | [] =>
      (match final with
       | Some e =>
           (EmptyString, Some (ErrorfW (String.append "error reading " path) e))
       | None => (EmptyString, Some ErrPodIDNotFound)
       end, 1)
  | l :: ls' =>
      if (len l <? line_cap)%Z then
        let m := regexp.FindStringSubmatch podid.podIDRegex (text l) in
        if List.length m =? 2 then ((nth 1 m EmptyString, None), 1)
        else let '(res, n) := scan_spec path final ls' in (res, S n)
      else
        ((EmptyString,
          Some (ErrorfW (String.append "error reading " path) ErrTooLong)), 1)
  end.

(** ** The invariant of the scanner *)

(** What a read reports at the end of the file. *)
Definition final_error (h : os.Handle) : error :=
  match os.herr h with
  | Some e => ErrPath e
  | None => EOF
  end.

(** The buffer is not empty, no longer than the cap, and holds the pending
    bytes; an error is recorded only at the end of the file, by a read into
    a buffer that was not full. *)
Record scanner_ok (cap : Z) (s : bufio.Scanner) : Prop := mk_scanner_ok {
  ok_start : (0 <= bufio.start s)%Z;
  ok_end : (bufio.end_ s <= bufio.buf_len s)%Z;
  ok_buf : (0 < bufio.buf_len s <= cap)%Z;
  ok_max : bufio.maxTokenSize s = cap;
  ok_cap : (cap <= bufio.maxInt / 2)%Z;
  ok_err :
    bufio.err s = None \/
    (bufio.err s = Some (final_error (bufio.r s)) /\
     os.unread (bufio.r s) = [] /\
     (bufio.end_ s < bufio.buf_len s)%Z)
}.

(** What the scanner has still to deliver: the pending bytes, then the
    unread part of the file. *)
Definition input (s : bufio.Scanner) : list ascii :=
  bufio.pending s ++ os.unread (bufio.r s).

(** A bound on the turns of the loop of [Scan] that do not return: one for
    each unread byte, and one for the read that finds the end. *)
Definition turns_left (s : bufio.Scanner) : nat :=
  List.length (os.unread (bufio.r s)) +
  match bufio.err s with Some _ => 0 | None => 1 end.

(** What [Err] reports when the scanner has reached the end of the file. *)
Definition final_Err (h : os.Handle) : option error :=
  match os.herr h with
  | Some e => Some (ErrPath e)
  | None => None
  end.

(* ================================================================== *)
(** * Part II: properties                                              *)
(* ================================================================== *)

Unset Implicit Arguments.

(** ** The memoizing resolver [podid.Get] *)

Section GetFacts.

Import podid.

Context {Env : Type}.

Implicit Types (w : State Env) (f g : Provider Env).

Ltac run_get :=
  unfold Get, bind, locking, gets, modify, ret, call_getPodIDFunc,
    set_mu, set_cachedID, set_hasID, sync.RLock, sync.RUnlock, sync.Lock,
    sync.Unlock; simpl.

(** The hot path: a present value is returned and nothing changes, not even
    the environment of the provider. *)
Lemma Get_hit w :
  mu w = sync.zero -> hasID w = true ->
  Get w = Some ((cachedID w, None), w).
Proof.
  destruct w as [id has m f e n]; simpl; intros -> ->.
  reflexivity.
Qed.

(** A cold cache and a provider that succeeds. *)
Lemma Get_miss_ok w id env' :
  mu w = sync.zero -> hasID w = false ->
  getPodIDFunc w (env w) = Some ((id, None), env') ->
  Get w = Some ((id, None),
                mkState id true sync.zero (getPodIDFunc w) env' (S (calls w))).
Proof.
  destruct w as [id0 has m f e n]; simpl; intros -> -> Hf.
  run_get. rewrite Hf. reflexivity.
Qed.

(** A cold cache and a provider that fails. *)
Lemma Get_miss_err w id err env' :
  mu w = sync.zero -> hasID w = false ->
  getPodIDFunc w (env w) = Some ((id, Some err), env') ->
  Get w = Some ((EmptyString, Some err),
                mkState (cachedID w) false sync.zero (getPodIDFunc w) env'
                        (S (calls w))).
Proof.
  destruct w as [id0 has m f e n]; simpl; intros -> -> Hf.
  run_get. rewrite Hf. reflexivity.
Qed.

(** A cold cache and a provider that does not return. *)
Lemma Get_miss_stuck w :
  mu w = sync.zero -> hasID w = false ->
  getPodIDFunc w (env w) = None ->
  Get w = None.
Proof.
  destruct w as [id0 has m f e n]; simpl; intros -> -> Hf.
  run_get. rewrite Hf. reflexivity.
Qed.

(** [Get] gives the mutex back. *)
Lemma Get_unlocks w res w' :
  mu w = sync.zero -> Get w = Some (res, w') -> mu w' = sync.zero.
Proof.
  intros Hmu HG.
  destruct (hasID w) eqn:Hhas.
  - rewrite (Get_hit w Hmu Hhas) in HG. injection HG as _ <-. exact Hmu.
  - destruct (getPodIDFunc w (env w)) as [[[id [e|]] env']|] eqn:Hf.
    + rewrite (Get_miss_err w _ _ _ Hmu Hhas Hf) in HG. injection HG as _ <-.
      reflexivity.
    + rewrite (Get_miss_ok w _ _ Hmu Hhas Hf) in HG. injection HG as _ <-.
      reflexivity.
    + rewrite (Get_miss_stuck w Hmu Hhas Hf) in HG. discriminate.
Qed.

(** Once a value is present, any number of calls, with any providers,
    return it and change nothing but the provider variable. *)
Lemma Gets_warm (gs : list (Provider Env)) w :
  mu w = sync.zero -> hasID w = true ->
  exists w',
    Gets gs w = Some (repeat (cachedID w, None) (List.length gs), w') /\
    cachedID w' = cachedID w /\ hasID w' = true /\ mu w' = sync.zero /\
    env w' = env w /\ calls w' = calls w.
Proof.
  revert w. induction gs as [|g gs IH]; intros w Hmu Hhas.
  - exists w. repeat split; auto.
  - destruct (IH (inject g w) Hmu Hhas) as (w' & HG & Hid & Hh & Hm & He & Hc).
    exists w'. repeat split; auto.
    simpl. unfold bind at 1. unfold modify at 1. unfold bind at 1.
    rewrite (Get_hit (inject g w) Hmu Hhas).
    unfold bind at 1. rewrite HG. reflexivity.
Qed.

(** Calls in sequence compose. *)
Lemma Gets_app (fs gs : list (Provider Env)) w rs w1 :
  Gets fs w = Some (rs, w1) ->
  Gets (fs ++ gs) w =
  match Gets gs w1 with
  | Some (rs', w2) => Some (rs ++ rs', w2)
  | None => None
  end.
Proof.
  revert w rs w1. induction fs as [|f fs IH]; intros w rs w1 H.
  - simpl in H. injection H as <- <-. simpl.
    destruct (Gets gs w) as [[rs' w2]|]; reflexivity.
  - simpl in H |- *. unfold bind, modify, ret in H |- *.
    destruct (Get (inject f w)) as [[res wa]|]; [|discriminate].
    destruct (Gets fs wa) as [[rs0 wb]|] eqn:HG; [|discriminate].
    injection H as <- <-.
    rewrite (IH _ _ _ HG).
    destruct (Gets gs wb) as [[rs' w2]|]; reflexivity.
Qed.

(** The mutex is free between the calls of a sequence. *)
Lemma Gets_unlocks (fs : list (Provider Env)) w rs w' :
  mu w = sync.zero -> Gets fs w = Some (rs, w') -> mu w' = sync.zero.
Proof.
  revert w rs w'. induction fs as [|f fs IH]; intros w rs w' Hmu H.
  - simpl in H. injection H as _ <-. exact Hmu.
  - simpl in H. unfold bind, modify, ret in H.
    destruct (Get (inject f w)) as [[res wa]|] eqn:HG; [|discriminate].
    destruct (Gets fs wa) as [[rs0 wb]|] eqn:HGs; [|discriminate].
    injection H as _ <-.
    apply (IH _ _ _ (Get_unlocks (inject f w) _ _ Hmu HG) HGs).
Qed.

End GetFacts.

(** ** Claims about [podid.Get] *)

Section GetClaims.

Import podid.

Context {Env : Type}.

(** C1.  Two calls in a row on a cold cache, the first of which succeeds
    with [v]: the second returns [v] with the nil error and leaves the whole
    state as it was, so the provider has been invoked once over the two
    calls.  In general a call that finds a value present returns it and
    changes nothing: the provider is not invoked. *)
Theorem Get_twice_invokes_provider_once
    (f : Provider Env) (w0 w1 : State Env) (v : string) :
  mu w0 = sync.zero -> hasID w0 = false ->
  Get (inject f w0) = Some ((v, None), w1) ->
  Get w1 = Some ((v, None), w1) /\
  calls w1 = S (calls w0) /\
  (forall w : State Env,
      mu w = sync.zero -> hasID w = true ->
      Get w = Some ((cachedID w, None), w)).
Proof.
  intros Hmu Hcold HG.
  assert (Hmu' : mu (inject f w0) = sync.zero) by exact Hmu.
  assert (Hcold' : hasID (inject f w0) = false) by exact Hcold.
  split; [|split; [|intros w; apply Get_hit]].
  - destruct (f (env w0)) as [[[id [e|]] env']|] eqn:Hf.
    + rewrite (Get_miss_err (inject f w0) _ _ _ Hmu' Hcold' Hf) in HG. discriminate.
    + rewrite (Get_miss_ok (inject f w0) _ _ Hmu' Hcold' Hf) in HG.
      injection HG as -> <-. apply Get_hit; reflexivity.
    + rewrite (Get_miss_stuck (inject f w0) Hmu' Hcold' Hf) in HG.
      discriminate.
  - destruct (f (env w0)) as [[[id [e|]] env']|] eqn:Hf.
    + rewrite (Get_miss_err (inject f w0) _ _ _ Hmu' Hcold' Hf) in HG. discriminate.
    + rewrite (Get_miss_ok (inject f w0) _ _ Hmu' Hcold' Hf) in HG.
      injection HG as _ <-. reflexivity.
    + rewrite (Get_miss_stuck (inject f w0) Hmu' Hcold' Hf) in HG.
      discriminate.
Qed.

(** C2.  On a cold cache a provider that fails with [e] makes [Get] return
    the empty identifier and [e] itself, with [cachedID] and [hasID] as they
    were.  The next call invokes the provider again, whichever it is; when
    that call succeeds with [v], every later call returns [v] without
    invoking a provider. *)
Theorem Get_failure_is_not_cached
    (f : Provider Env) (w0 : State Env) (s : string) (e : error)
    (env1 : Env) :
  mu w0 = sync.zero -> hasID w0 = false ->
  f (env w0) = Some ((s, Some e), env1) ->
  exists w1,
    Get (inject f w0) = Some ((EmptyString, Some e), w1) /\
    cachedID w1 = cachedID w0 /\ hasID w1 = hasID w0 /\
    env w1 = env1 /\ calls w1 = S (calls w0) /\
    (forall g : Provider Env, g env1 = None -> Get (inject g w1) = None) /\
    (forall (g : Provider Env) res w2,
        Get (inject g w1) = Some (res, w2) ->
        calls w2 = S (calls w1) /\
        exists s', g env1 = Some ((s', snd res), env w2)) /\
    (forall (g : Provider Env) v env2,
        g env1 = Some ((v, None), env2) ->
        exists w2,
          Get (inject g w1) = Some ((v, None), w2) /\
          calls w2 = S (S (calls w0)) /\
          forall hs : list (Provider Env),
          exists w3,
            Gets hs w2 = Some (repeat (v, None) (List.length hs), w3) /\
            cachedID w3 = v /\ hasID w3 = true /\ calls w3 = calls w2).
Proof.
  intros Hmu Hcold Hf.
  pose (w1 := mkState (cachedID w0) false sync.zero f env1 (S (calls w0))).
  exists w1.
  assert (HG : Get (inject f w0) = Some ((EmptyString, Some e), w1)).
  { apply (@Get_miss_err _ (inject f w0) s e env1); assumption. }
  split; [exact HG|].
  split; [reflexivity|]. split; [symmetry; exact Hcold|].
  split; [reflexivity|]. split; [reflexivity|].
  split; [|split].
  - intros g Hg. apply (@Get_miss_stuck _ (inject g w1)); auto.
  - intros g res w2 HG2.
    destruct (g env1) as [[[id [e'|]] env2]|] eqn:Hg.
    + rewrite (@Get_miss_err _ (inject g w1) id e' env2) in HG2 by auto.
      injection HG2 as <- <-. split; [reflexivity|]. exists id. reflexivity.
    + rewrite (@Get_miss_ok _ (inject g w1) id env2) in HG2 by auto.
      injection HG2 as <- <-. split; [reflexivity|]. exists id. reflexivity.
    + rewrite (@Get_miss_stuck _ (inject g w1)) in HG2 by auto. discriminate.
  - intros g v env2 Hg.
    pose (w2 := mkState v true sync.zero g env2 (S (S (calls w0)))).
    exists w2. split; [|split; [reflexivity|]].
    + apply (@Get_miss_ok _ (inject g w1) v env2); auto.
    + intros hs.
      destruct (@Gets_warm _ hs w2 eq_refl eq_refl)
        as (w3 & HGs & Hid & Hh & _ & _ & Hc).
      exists w3. auto.
Qed.

(** C8.  The cache starts absent.  In any sequence of calls of [Get] from
    the start, with any provider at each call: once the flag [hasID] is true
    after some call, it is true after every later call, [cachedID] is still
    the same, and every later call returns that value. *)
Theorem Get_cache_is_monotone
    (f : Provider Env) (e : Env) (fs gs : list (Provider Env))
    (rs : list result) (w1 : State Env) :
  Gets fs (initial f e) = Some (rs, w1) ->
  hasID w1 = true ->
  hasID (initial f e) = false /\
  exists w2,
    Gets (fs ++ gs) (initial f e) =
      Some (rs ++ repeat (cachedID w1, None) (List.length gs), w2) /\
    hasID w2 = true /\ cachedID w2 = cachedID w1 /\ calls w2 = calls w1.
Proof.
  intros Hfs Hhas. split; [reflexivity|].
  assert (Hmu : mu w1 = sync.zero).
  { apply (Gets_unlocks fs (initial f e) _ _ eq_refl Hfs). }
  destruct (Gets_warm gs w1 Hmu Hhas) as (w2 & HG & Hid & Hh & _ & _ & Hc).
  exists w2. rewrite (Gets_app fs gs _ _ _ Hfs), HG. auto.
Qed.

(** C10.  [Get] takes whatever the provider returns with the nil error: on
    a cold cache the string [s], be it empty, is stored, the flag is set and
    [(s, nil)] is returned; every later call returns [s] and invokes no
    provider. *)
Theorem Get_caches_any_string
    (f : Provider Env) (w0 : State Env) (s : string) (env1 : Env) :
  mu w0 = sync.zero -> hasID w0 = false ->
  f (env w0) = Some ((s, None), env1) ->
  exists w1,
    Get (inject f w0) = Some ((s, None), w1) /\
    cachedID w1 = s /\ hasID w1 = true /\ calls w1 = S (calls w0) /\
    forall gs : list (Provider Env),
    exists w2,
      Gets gs w1 = Some (repeat (s, None) (List.length gs), w2) /\
      cachedID w2 = s /\ hasID w2 = true /\
      calls w2 = calls w1 /\ env w2 = env1.
Proof.
  intros Hmu Hcold Hf.
  pose (w1 := mkState s true sync.zero f env1 (S (calls w0))).
  exists w1. split; [|repeat split].
  - apply (@Get_miss_ok _ (inject f w0) s env1); assumption.
  - intros gs.
    destruct (@Gets_warm _ gs w1 eq_refl eq_refl)
      as (w2 & HGs & Hid & Hh & _ & He & Hc).
    exists w2. auto.
Qed.

End GetClaims.

(** ** Package strings: [Split] and [Replace] *)

Section StringsFacts.

Import strings.

Local Open Scope string_scope.

Lemma Split_not_nil (s : string) (sep : ascii) : Split s sep <> [].
Proof.
  destruct s as [|c s]; simpl; [discriminate|].
  destruct (Ascii.eqb c sep); [discriminate|].
  destruct (Split s sep); discriminate.
Qed.

Lemma nth_error_last {A} (l : list A) (d : A) :
  l <> [] -> nth_error l (List.length l - 1) = Some (last l d).
Proof.
  induction l as [|x l IH]; [congruence|]. intros _.
  destruct l as [|y l]; [reflexivity|].
  specialize (IH ltac:(discriminate)).
  simpl in IH |- *. rewrite Nat.sub_0_r in IH. exact IH.
Qed.

(** Either there is no separator and one segment, or the last segment is
    what follows the last separator. *)
Lemma Split_cases (s : string) (sep : ascii) :
  (Split s sep = [s] /\ ~ In sep (list_ascii_of_string s)) \/
  (exists d seg0 segs,
      Split s sep = seg0 :: segs /\ segs <> [] /\
      s = d ++ String sep (last segs "") /\
      ~ In sep (list_ascii_of_string (last segs ""))).
Proof.
  induction s as [|c s IH].
  - left. simpl. auto.
  - simpl. destruct (Ascii.eqb c sep) eqn:Hc.
    + apply Ascii.eqb_eq in Hc. subst c. right.
      destruct IH as [[HS Hno]|(d & seg0 & segs & HS & Hne & Heq & Hno)].
      * exists "", "", [s]. rewrite HS. simpl.
        repeat split; auto; discriminate.
      * exists (String sep d), "", (seg0 :: segs). rewrite HS.
        repeat split; try discriminate.
        -- simpl. f_equal. destruct segs; [congruence|]. exact Heq.
        -- destruct segs; [congruence|]. exact Hno.
    + destruct IH as [[HS Hno]|(d & seg0 & segs & HS & Hne & Heq & Hno)].
      * left. rewrite HS. split; [reflexivity|].
        simpl. intros [->|H]; [|auto].
        rewrite Ascii.eqb_refl in Hc. discriminate.
      * right. exists (String c d), (String c seg0), segs. rewrite HS.
        repeat split; auto. simpl. f_equal. exact Heq.
Qed.

Lemma append_assoc (a b c : string) : (a ++ b) ++ c = a ++ (b ++ c).
Proof. induction a as [|x a IH]; simpl; [reflexivity|]. f_equal. exact IH. Qed.

(** The last segment is what follows the last separator. *)
Lemma Split_last (s : string) (sep : ascii) :
  exists dir,
    s = dir ++ last (Split s sep) "" /\
    (dir = "" \/ exists d, dir = d ++ String sep "") /\
    ~ In sep (list_ascii_of_string (last (Split s sep) "")).
Proof.
  destruct (Split_cases s sep)
    as [[HS Hno]|(d & seg0 & segs & HS & Hne & Heq & Hno)]; rewrite HS.
  - exists "". simpl. auto.
  - exists (d ++ String sep "").
    assert (Hl : last (seg0 :: segs) "" = last segs "").
    { destruct segs; [congruence|reflexivity]. }
    rewrite Hl. split; [|split].
    + rewrite append_assoc. exact Heq.
    + right. exists d. reflexivity.
    + exact Hno.
Qed.

(** Replacing a byte by nothing removes it and keeps the rest in order. *)
Lemma Replace_removes (old : ascii) (s : string) :
  list_ascii_of_string (Replace (NewReplacer old "") s) =
  filter (fun c => negb (Ascii.eqb c old)) (list_ascii_of_string s).
Proof.
  induction s as [|c s IH]; [reflexivity|].
  simpl. destruct (Ascii.eqb c old); simpl; [exact IH|].
  f_equal. exact IH.
Qed.

Lemma last_In {A} (l : list A) (d : A) : l <> [] -> In (last l d) l.
Proof.
  induction l as [|x l IH]; [congruence|]. intros _.
  destruct l as [|y l]; [left; reflexivity|].
  right. apply IH. discriminate.
Qed.

Lemma last_filter {A} (p : A -> bool) (l : list A) (d : A) :
  l <> [] -> p (last l d) = true -> last (filter p l) d = last l d.
Proof.
  induction l as [|x l IH]; [congruence|]. intros _ H.
  destruct l as [|y l].
  - simpl in *. rewrite H. reflexivity.
  - assert (Hne : y :: l <> []) by discriminate.
    change (last (x :: y :: l) d) with (last (y :: l) d) in *.
    specialize (IH Hne H).
    change (filter p (x :: y :: l))
      with (if p x then x :: filter p (y :: l) else filter p (y :: l)).
    destruct (p x); [|exact IH].
    destruct (filter p (y :: l)) as [|z zs] eqn:Hf; [|exact IH].
    exfalso.
    assert (Hin : In (last (y :: l) d) (filter p (y :: l))).
    { apply filter_In. split; [apply last_In; exact Hne|exact H]. }
    rewrite Hf in Hin. destruct Hin.
Qed.

(** A non-empty last segment is the last non-empty segment. *)
Lemma last_segment_nonempty (c : string) :
  last (Split c "/"%char) "" <> "" ->
  last (Split c "/"%char) "" = last_nonempty_segment c.
Proof.
  intros H. unfold last_nonempty_segment. symmetry.
  apply last_filter; [apply Split_not_nil|].
  destruct (String.eqb_spec (last (Split c "/"%char) "") ""); [contradiction|].
  reflexivity.
Qed.

End StringsFacts.

(** ** Claims about [getContainerID] *)

Section ContainerClaims.

Import main strings.

Local Open Scope string_scope.

(** C3.  The error of the fallback is lost.  With the root cgroup in
    [/proc/self/cpuset] and a [containerid.Get] that fails because the mount
    table cannot be opened, [getContainerID] calls the fallback once and
    returns [ErrContainerIDNotFound], in which the error of the fallback
    does not occur. *)
Theorem getContainerID_drops_fallback_error :
  getContainerID inputs.denied_fallback
                 (mkWorld (inputs.cpuset_is ("/" ++ nl)) tt 0) =
    Some (("", Some ErrContainerIDNotFound),
          mkWorld (inputs.cpuset_is ("/" ++ nl)) tt 1) /\
  errors.Is ErrContainerIDNotFound inputs.mountinfo_denied = false /\
  errors.Is inputs.mountinfo_denied ErrContainerIDNotFound = false.
Proof. repeat split. Qed.

(** Whatever the fallback reports is dropped: an empty identifier gives
    [ErrContainerIDNotFound], any other comes back with the nil error. *)
Lemma getContainerID_fallback
    (Cid : Type) (cget : M Cid result) (w : World Cid) (b : list ascii)
    (id : string) (err : option error) (c' : Cid) :
  os.ReadFile (fs w) cpusetPath = inr b ->
  TrimSpace (string_of_list_ascii b) = "/" ->
  cget (containerid w) = Some ((id, err), c') ->
  getContainerID cget w =
    Some (if String.eqb id "" then ("", Some ErrContainerIDNotFound)
          else (id, None),
          mkWorld (fs w) c' (S (fallbacks w))).
Proof.
  intros Hread Htrim Hget.
  unfold getContainerID, bind, gets, call_containerid_Get.
  rewrite Hread, Htrim. simpl. rewrite Hget.
  destruct (String.eqb id ""); reflexivity.
Qed.

(** An unreadable [/proc/self/cpuset]: the error comes back as it is. *)
Lemma getContainerID_unreadable
    (Cid : Type) (cget : M Cid result) (w : World Cid) (e : error) :
  os.ReadFile (fs w) cpusetPath = inl e ->
  getContainerID cget w = Some (("", Some e), w).
Proof.
  intros Hread. unfold getContainerID, bind, gets. rewrite Hread. reflexivity.
Qed.

(** C4, as stated, fails: for the content [/docker/abc/] the last non-empty
    segment is [abc], and [getContainerID] returns the empty string. *)
Lemma getContainerID_last_nonempty_counterexample :
  TrimSpace "/docker/abc/" <> "/" /\
  last_nonempty_segment "/docker/abc/" = "abc" /\
  getContainerID inputs.denied_fallback
                 (mkWorld (inputs.cpuset_is "/docker/abc/") tt 0) =
    Some (("", None), mkWorld (inputs.cpuset_is "/docker/abc/") tt 0) /\
  Replace replacer (last_nonempty_segment "/docker/abc/") <> "".
Proof.
  split; [|split; [|split]]; try reflexivity; vm_compute; discriminate.
Qed.

(** C4, amended.  When the content [c] of [/proc/self/cpuset], trimmed, is
    not the root sentinel, [getContainerID] returns with the nil error the
    last segment [seg] of [c], that is what follows the last [/] of [c] (all
    of [c] when there is none), without its line feeds.  The state is as it
    was: the fallback is not invoked, and it does not matter what it would
    do.  A last segment that is not empty is the last non-empty segment. *)
Theorem getContainerID_cgroup_v1
    (Cid : Type) (cget : M Cid result) (w : World Cid) (b : list ascii) :
  os.ReadFile (fs w) cpusetPath = inr b ->
  TrimSpace (string_of_list_ascii b) <> "/" ->
  exists dir seg,
    string_of_list_ascii b = dir ++ seg /\
    (dir = "" \/ exists d, dir = d ++ "/") /\
    ~ In "/"%char (list_ascii_of_string seg) /\
    getContainerID cget w = Some ((Replace replacer seg, None), w) /\
    list_ascii_of_string (Replace replacer seg) =
      filter (fun c => negb (Ascii.eqb c bufio.LF)) (list_ascii_of_string seg) /\
    (seg <> "" -> seg = last_nonempty_segment (string_of_list_ascii b)).
Proof.
  intros Hread Htrim.
  set (c := string_of_list_ascii b) in *.
  destruct (Split_last c "/"%char) as (dir & Heq & Hdir & Hno).
  exists dir, (last (Split c "/"%char) "").
  split; [exact Heq|]. split; [exact Hdir|]. split; [exact Hno|].
  split; [|split].
  - unfold getContainerID, bind, gets. rewrite Hread. fold c.
    destruct (String.eqb_spec (TrimSpace c) "/") as [E|_]; [contradiction|].
    simpl negb. cbv iota.
    rewrite (nth_error_last _ "" (Split_not_nil c "/"%char)).
    reflexivity.
  - apply Replace_removes.
  - apply last_segment_nonempty.
Qed.

End ContainerClaims.

(** ** Byte slices *)

Arguments len : simpl never.

Section SliceFacts.

Local Open Scope Z_scope.

Implicit Types (a b l : list ascii) (n : Z).

Lemma len_nil : len [] = 0.
Proof. reflexivity. Qed.

Lemma len_cons (x : ascii) l : len (x :: l) = len l + 1.
Proof. unfold len. simpl List.length. lia. Qed.

Lemma len_app a b : len (a ++ b) = len a + len b.
Proof. unfold len. rewrite length_app. lia. Qed.

Lemma len_nonneg l : 0 <= len l.
Proof. unfold len. lia. Qed.

Lemma len_zero l : len l = 0 -> l = [].
Proof. destruct l; [reflexivity|]. rewrite len_cons. pose proof (len_nonneg l). lia. Qed.

Lemma takeZ_dropZ n l : takeZ n l ++ dropZ n l = l.
Proof.
  revert n. induction l as [|x l IH]; intros n; simpl; [reflexivity|].
  destruct (n <=? 0); simpl; [reflexivity|]. f_equal. apply IH.
Qed.

Lemma len_takeZ n l : 0 <= n -> len (takeZ n l) = Z.min n (len l).
Proof.
  revert n. induction l as [|x l IH]; intros n Hn; simpl.
  - rewrite len_nil. lia.
  - destruct (Z.leb_spec n 0).
    + rewrite len_nil, len_cons. pose proof (len_nonneg l). lia.
    + rewrite !len_cons, IH by lia. lia.
Qed.

Lemma dropZ_le0 n l : n <= 0 -> dropZ n l = l.
Proof.
  intros Hn. destruct l as [|x l]; simpl; [reflexivity|].
  destruct (Z.leb_spec n 0); [reflexivity|lia].
Qed.

Lemma takeZ_cons n (x : ascii) l :
  0 < n -> takeZ n (x :: l) = x :: takeZ (n - 1) l.
Proof. intros Hn. simpl. destruct (Z.leb_spec n 0); [lia|reflexivity]. Qed.

Lemma dropZ_cons n (x : ascii) l :
  0 < n -> dropZ n (x :: l) = dropZ (n - 1) l.
Proof. intros Hn. simpl. destruct (Z.leb_spec n 0); [lia|reflexivity]. Qed.

Lemma takeZ_app n a b : n = len a -> takeZ n (a ++ b) = a.
Proof.
  revert n. induction a as [|x a IH]; intros n ->.
  - rewrite len_nil. destruct b; reflexivity.
  - pose proof (len_nonneg a).
    rewrite <- app_comm_cons, len_cons, takeZ_cons by lia.
    f_equal. apply IH. lia.
Qed.

Lemma dropZ_app n a b : n = len a -> dropZ n (a ++ b) = b.
Proof.
  revert n. induction a as [|x a IH]; intros n ->.
  - apply dropZ_le0. rewrite len_nil. lia.
  - pose proof (len_nonneg a).
    rewrite <- app_comm_cons, len_cons, dropZ_cons by lia.
    apply IH. lia.
Qed.

Lemma length_dropZ n l :
  0 < n -> l <> [] -> (List.length (dropZ n l) < List.length l)%nat.
Proof.
  revert n. induction l as [|x l IH]; intros n Hn Hl; [congruence|].
  simpl. destruct (Z.leb_spec n 0); [lia|].
  destruct l as [|y l]; [simpl; lia|].
  destruct (Z.leb_spec (n - 1) 0) as [H0|H0].
  - rewrite dropZ_le0 by lia. simpl. lia.
  - specialize (IH (n - 1) H0 ltac:(discriminate)). simpl in IH |- *. lia.
Qed.

End SliceFacts.

Arguments takeZ : simpl never.
Arguments dropZ : simpl never.

(** ** Package bufio: [ScanLines] *)

Section ScanLinesFacts.

Import bufio.

Local Open Scope Z_scope.

Lemma IndexByte_notin (b : list ascii) (c : ascii) :
  ~ In c b -> IndexByte b c = -1.
Proof.
  induction b as [|x b IH]; intros Hno; [reflexivity|].
  simpl. destruct (Ascii.eqb_spec x c) as [->|_].
  - exfalso. apply Hno. left. reflexivity.
  - rewrite IH by (intros H; apply Hno; right; exact H). reflexivity.
Qed.

Lemma IndexByte_app (a b : list ascii) (c : ascii) :
  ~ In c a -> IndexByte (a ++ c :: b) c = len a.
Proof.
  induction a as [|x a IH]; intros Hno.
  - simpl. rewrite Ascii.eqb_refl. reflexivity.
  - rewrite <- app_comm_cons. simpl IndexByte.
    destruct (Ascii.eqb_spec x c) as [->|_].
    + exfalso. apply Hno. left. reflexivity.
    + rewrite IH by (intros H; apply Hno; right; exact H).
      pose proof (len_nonneg a). rewrite len_cons.
      destruct (Z.ltb_spec (len a) 0); [lia|reflexivity].
Qed.

(** A complete line is in the data. *)
Lemma ScanLines_line (line rest : list ascii) (atEOF : bool) :
  ~ In LF line ->
  ScanLines (line ++ LF :: rest) atEOF = (len line + 1, Some (dropCR line)).
Proof.
  intros Hno. unfold ScanLines.
  pose proof (len_nonneg line). pose proof (len_nonneg rest).
  assert (Hlen : (len (line ++ LF :: rest) =? 0) = false).
  { apply Z.eqb_neq. rewrite len_app, len_cons. lia. }
  rewrite Hlen, andb_false_r, IndexByte_app by exact Hno.
  destruct (Z.leb_spec 0 (len line)); [|lia].
  rewrite takeZ_app by reflexivity. reflexivity.
Qed.

(** No line feed yet, and the file goes on. *)
Lemma ScanLines_more (data : list ascii) :
  ~ In LF data -> ScanLines data false = (0, None).
Proof.
  intros Hno. unfold ScanLines. rewrite IndexByte_notin by exact Hno.
  reflexivity.
Qed.

(** The last line has no line feed. *)
Lemma ScanLines_last (data : list ascii) :
  ~ In LF data -> data <> [] ->
  ScanLines data true = (len data, Some (dropCR data)).
Proof.
  intros Hno Hne. unfold ScanLines.
  assert (Hlen : (len data =? 0) = false).
  { apply Z.eqb_neq. intros H. apply Hne, len_zero, H. }
  rewrite Hlen, IndexByte_notin by exact Hno. reflexivity.
Qed.

(** Where the first line feed of [p ++ u] falls. *)
Lemma line_in_two (p u line rest : list ascii) :
  p ++ u = line ++ LF :: rest -> ~ In LF line ->
  (exists p2, p = line ++ LF :: p2 /\ rest = p2 ++ u) \/
  (exists l2, line = p ++ l2 /\ u = l2 ++ LF :: rest /\ ~ In LF p).
Proof.
  intros Heq Hno. apply app_eq_app in Heq.
  destruct Heq as (l & [[-> Hu]|[-> Hu]]).
  - destruct l as [|x l].
    + right. exists []. simpl in Hu. rewrite !app_nil_r. auto.
    + injection Hu as <- ->. left. exists l. auto.
  - right. exists l. repeat split; auto.
    intros H. apply Hno, in_or_app. left. exact H.
Qed.

End ScanLinesFacts.

(** ** Package bufio: one turn of the loop of [Scan] *)

Section TurnFacts.

Import bufio.

Local Open Scope Z_scope.

Variable cap : Z.

Ltac open_scanner s :=
  destruct s as [h mx tok bl st p e n];
  unfold input, turns_left, end_ in *; simpl in *.

Ltac ok_fields H :=
  destruct H as [Hst Hend Hbuf Hmax Hcap Herr];
  unfold end_ in *; simpl in *.

Ltac ztest :=
  repeat match goal with
         | |- context [(?a <? ?b)%Z] =>
             destruct (Z.ltb_spec a b); try lia
         | |- context [(?a <=? ?b)%Z] =>
             destruct (Z.leb_spec a b); try lia
         | |- context [(?a =? ?b)%Z] =>
             destruct (Z.eqb_spec a b); try lia
         end.

Lemma dropZ_line (line p2 : list ascii) :
  dropZ (len line + 1) (line ++ LF :: p2) = p2.
Proof.
  replace (line ++ LF :: p2) with ((line ++ [LF]) ++ p2)
    by (rewrite <- app_assoc; reflexivity).
  apply dropZ_app. rewrite len_app, len_cons, len_nil. lia.
Qed.

(** The pending bytes hold a complete line: it is the token. *)
Lemma turn_line (s : Scanner) (line p2 : list ascii) :
  scanner_ok cap s ->
  pending s = line ++ LF :: p2 -> ~ In LF line ->
  exists s',
    Scan_turn s = Return true s' /\
    token s' = dropCR line /\ pending s' = p2 /\ r s' = r s /\
    scans s' = scans s /\ scanner_ok cap s'.
Proof.
  intros Hok Hp Hno. open_scanner s. ok_fields Hok. subst p.
  pose proof (len_nonneg line). pose proof (len_nonneg p2).
  assert (Hl : len (line ++ LF :: p2) = len line + 1 + len p2).
  { rewrite len_app, len_cons. lia. }
  eexists. split.
  - unfold Scan_turn, split_pending, end_, advance. simpl.
    rewrite ScanLines_line by exact Hno. unfold end_. simpl.
    ztest. simpl. reflexivity.
  - simpl. rewrite dropZ_line.
    split; [reflexivity|]. split; [reflexivity|]. split; [reflexivity|].
    split; [reflexivity|].
    constructor; unfold end_; simpl; auto; try lia.
    destruct Herr as [He|(He & Hu & Hlt)]; [left; exact He|right].
    split; [exact He|]. split; [exact Hu|]. lia.
Qed.

(** At the end of the file what is pending is the last line. *)
Lemma turn_last (s : Scanner) (e0 : error) :
  scanner_ok cap s ->
  err s = Some e0 -> pending s <> [] -> ~ In LF (pending s) ->
  exists s',
    Scan_turn s = Return true s' /\
    token s' = dropCR (pending s) /\ pending s' = [] /\ r s' = r s /\
    scans s' = scans s /\ scanner_ok cap s'.
Proof.
  intros Hok He Hne Hno. open_scanner s. ok_fields Hok. subst e.
  pose proof (len_nonneg p).
  assert (Hd : dropZ (len p) p = []).
  { rewrite <- (app_nil_r p) at 2. apply dropZ_app. reflexivity. }
  eexists. split.
  - unfold Scan_turn, split_pending, end_, advance. simpl.
    rewrite orb_true_r, ScanLines_last by assumption. unfold end_. simpl.
    ztest. simpl. reflexivity.
  - simpl. rewrite Hd.
    split; [reflexivity|]. split; [reflexivity|]. split; [reflexivity|].
    split; [reflexivity|].
    destruct Herr as [Hn|(Hf & Hu & Hlt)]; [discriminate|].
    constructor; unfold end_; simpl; rewrite ?len_nil; auto; try lia.
    right. split; [exact Hf|]. split; [exact Hu|]. lia.
Qed.

(** At the end of the file with nothing pending, [Scan] is over. *)
Lemma turn_end (s : Scanner) (e0 : error) :
  err s = Some e0 -> pending s = [] ->
  exists s',
    Scan_turn s = Return false s' /\
    err s' = Some e0 /\ r s' = r s /\ scans s' = scans s.
Proof.
  intros He Hp. open_scanner s. subst e p.
  eexists. split.
  - unfold Scan_turn, split_pending, end_, advance. simpl.
    rewrite orb_true_r. unfold ScanLines, end_. simpl.
    rewrite len_nil. ztest. simpl. reflexivity.
  - simpl. auto.
Qed.

(** A full buffer at the cap without a line feed: the token is too long. *)
Lemma turn_too_long (s : Scanner) :
  scanner_ok cap s ->
  err s = None -> ~ In LF (pending s) -> len (pending s) = cap ->
  exists s',
    Scan_turn s = Return false s' /\
    err s' = Some ErrTooLong /\ scans s' = scans s.
Proof.
  intros Hok He Hno Hlen. open_scanner s. ok_fields Hok. subst e.
  assert (st = 0) by lia. assert (bl = cap) by lia. subst st bl mx.
  eexists. split.
  - unfold Scan_turn, split_pending, end_, advance. simpl.
    rewrite ScanLines_more by assumption. unfold end_. simpl.
    rewrite Hlen. ztest. simpl.
    unfold grow, shift, end_. simpl.
    rewrite dropZ_le0 by lia. rewrite Hlen. ztest. simpl. ztest.
    simpl. reflexivity.
  - simpl. auto.
Qed.

Lemma shift_ok (s : Scanner) :
  scanner_ok cap s ->
  scanner_ok cap (shift s) /\
  pending (shift s) = pending s /\ r (shift s) = r s /\
  err (shift s) = err s /\ scans (shift s) = scans s /\
  (end_ (shift s) = buf_len (shift s) -> start (shift s) = 0).
Proof.
  intros Hok. open_scanner s. ok_fields Hok. pose proof (len_nonneg p).
  unfold shift, end_. simpl.
  destruct ((0 <? st) && ((st + len p =? bl) || (bl / 2 <? st)))%bool eqn:Hc;
    simpl.
  - repeat (split; [try reflexivity|]); [|reflexivity].
    constructor; unfold end_; simpl; auto; try lia.
    destruct Herr as [Hn|(Hf & Hu & Hlt)]; [left; exact Hn|right].
    split; [exact Hf|]. split; [exact Hu|]. lia.
  - repeat (split; [try reflexivity|]).
    + constructor; unfold end_; simpl; auto.
    + intros Hfull. apply andb_false_iff in Hc. destruct Hc as [Hc|Hc].
      * apply Z.ltb_ge in Hc. lia.
      * apply orb_false_iff in Hc. destruct Hc as [Hc _].
        apply Z.eqb_neq in Hc. lia.
Qed.

Lemma grow_ok (s : Scanner) :
  scanner_ok cap s ->
  (end_ s = buf_len s -> start s = 0) -> len (pending s) < cap ->
  exists s',
    grow s = inr s' /\ scanner_ok cap s' /\
    pending s' = pending s /\ r s' = r s /\ err s' = err s /\
    scans s' = scans s /\ end_ s' < buf_len s'.
Proof.
  intros Hok Hfull Hlen. open_scanner s. ok_fields Hok.
  pose proof (len_nonneg p).
  unfold grow, end_. simpl.
  destruct (Z.eqb_spec (st + len p) bl) as [Heq|Hneq].
  - specialize (Hfull Heq). subst st mx.
    assert (Hbl : bl < cap) by lia.
    replace (cap <=? bl) with false by (symmetry; apply Z.leb_gt; lia).
    replace (maxInt / 2 <? bl) with false by (symmetry; apply Z.ltb_ge; lia).
    simpl. replace (bl * 2 =? 0) with false by (symmetry; apply Z.eqb_neq; lia).
    eexists. split; [reflexivity|]. simpl.
    repeat (split; [try reflexivity|]); unfold end_; simpl; [|lia].
    constructor; unfold end_; simpl; auto; try lia.
    destruct Herr as [Hn|(Hf & Hu & Hlt)]; [left; exact Hn|lia].
  - eexists. split; [reflexivity|]. simpl.
    repeat (split; [try reflexivity|]); unfold end_; simpl; [|lia].
    constructor; unfold end_; simpl; auto.
Qed.

Lemma fill_ok (s : Scanner) :
  scanner_ok cap s -> err s = None -> end_ s < buf_len s ->
  scanner_ok cap (fill s) /\ input (fill s) = input s /\
  os.herr (r (fill s)) = os.herr (r s) /\ scans (fill s) = scans s /\
  (turns_left (fill s) < turns_left s)%nat.
Proof.
  intros Hok He Hroom. open_scanner s. ok_fields Hok. subst e.
  destruct h as [u ch he]. pose proof (len_nonneg p).
  unfold fill, end_, os.Read. simpl.
  replace (bl - (st + len p) <=? 0) with false
    by (symmetry; apply Z.leb_gt; lia).
  destruct u as [|x u].
  - (* the end of the file *)
    simpl. rewrite len_nil.
    replace (bl - (st + len p) <? 0) with false
      by (symmetry; apply Z.ltb_ge; lia).
    simpl. unfold setErr, input, turns_left. simpl.
    rewrite !app_nil_r.
    repeat (split; [try reflexivity|]); [|lia].
    constructor; unfold end_; simpl; auto; try lia;
      right; unfold final_error; simpl; auto.
  - set (k := Z.min (bl - (st + len p)) (Z.pos (ch _))).
    assert (Hk : 0 < k) by (unfold k; lia).
    assert (Hn : len (takeZ k (x :: u)) = Z.min k (len (x :: u)))
      by (apply len_takeZ; lia).
    pose proof (len_nonneg u). rewrite len_cons in Hn.
    replace ((len (takeZ k (x :: u)) <? 0)
             || (bl - (st + len p) <? len (takeZ k (x :: u))))%bool
      with false
      by (symmetry; apply orb_false_iff; split; apply Z.ltb_ge; lia).
    replace (0 <? len (takeZ k (x :: u))) with true
      by (symmetry; apply Z.ltb_lt; lia).
    unfold input, turns_left. simpl os.unread. simpl pending. simpl err.
    simpl r. simpl scans. simpl os.herr.
    repeat (split; [try reflexivity|]).
    + constructor; unfold end_; simpl start; simpl pending; simpl buf_len;
        simpl maxTokenSize; simpl err; auto; try lia.
      rewrite len_app. lia.
    + rewrite <- app_assoc, takeZ_dropZ. reflexivity.
    + pose proof (length_dropZ k (x :: u) Hk ltac:(discriminate)). lia.
Qed.

(** More data are needed and there is room for them under the cap: the
    turn reads, or finds the end of the file. *)
Lemma turn_more (s : Scanner) :
  scanner_ok cap s ->
  err s = None -> ~ In LF (pending s) -> len (pending s) < cap ->
  exists s',
    Scan_turn s = Again s' /\ input s' = input s /\
    os.herr (r s') = os.herr (r s) /\ scans s' = scans s /\
    scanner_ok cap s' /\ (turns_left s' < turns_left s)%nat.
Proof.
  intros Hok He Hno Hlen.
  assert (Hsplit : exists s1,
             split_pending s = Again s1 /\ scanner_ok cap s1 /\
             pending s1 = pending s /\ r s1 = r s /\ err s1 = err s /\
             scans s1 = scans s).
  { clear Hlen. open_scanner s. ok_fields Hok. subst e.
    pose proof (len_nonneg p).
    unfold split_pending, end_, advance. simpl. rewrite orb_false_r.
    destruct (Z.ltb_spec st (st + len p)).
    - rewrite ScanLines_more by assumption. unfold end_. simpl. ztest.
      simpl. rewrite dropZ_le0, Z.add_0_r by lia.
      eexists. split; [reflexivity|]. simpl.
      repeat (split; [try reflexivity|]); [|reflexivity].
      constructor; unfold end_; simpl; auto.
    - eexists. split; [reflexivity|]. simpl.
      repeat (split; [try reflexivity|]); [|reflexivity].
      constructor; unfold end_; simpl; auto. }
  destruct Hsplit as (s1 & Hs1 & Hok1 & Hp1 & Hr1 & He1 & Hn1).
  destruct (shift_ok s1 Hok1) as (Hok2 & Hp2 & Hr2 & He2 & Hn2 & Hfull).
  destruct (grow_ok (shift s1) Hok2 Hfull ltac:(congruence))
    as (s3 & Hs3 & Hok3 & Hp3 & Hr3 & He3 & Hn3 & Hroom).
  destruct (fill_ok s3 Hok3 ltac:(congruence) Hroom)
    as (Hok4 & Hi4 & Hh4 & Hn4 & Ht4).
  exists (fill s3). split.
  - unfold Scan_turn. rewrite Hs1.
    replace (is_some (err s1)) with false by (rewrite He1, He; reflexivity).
    rewrite Hs3. reflexivity.
  - assert (Hi : input s3 = input s).
    { unfold input. rewrite Hp3, Hp2, Hp1, Hr3, Hr2, Hr1. reflexivity. }
    assert (Ht : turns_left s3 = turns_left s).
    { unfold turns_left. rewrite He3, He2, He1, Hr3, Hr2, Hr1. reflexivity. }
    split; [congruence|]. split; [congruence|]. split; [congruence|].
    split; [exact Hok4|]. lia.
Qed.

End TurnFacts.

(** ** Package bufio: [Scan] *)

Section ScanFacts.

Import bufio.

Local Open Scope Z_scope.

Variable cap : Z.

Lemma input_prefix (s : Scanner) (a b : list ascii) :
  input s = a ++ b -> len (pending s) <= len a ->
  exists a2, a = pending s ++ a2 /\ os.unread (r s) = a2 ++ b.
Proof.
  unfold input. intros Heq Hlen. apply app_eq_app in Heq.
  destruct Heq as (l & [[Hp Hb]|[Ha Hu]]).
  - assert (l = []).
    { apply len_zero. rewrite Hp, len_app in Hlen.
      pose proof (len_nonneg l). lia. }
    subst l. rewrite app_nil_r in Hp. simpl in Hb. subst b.
    exists []. rewrite app_nil_r. auto.
  - exists l. auto.
Qed.

(** The input begins with a complete line shorter than the cap: [Scan]
    delivers it. *)
Lemma Scan_loop_line (fuel : nat) (s : Scanner) (line rest : list ascii) :
  scanner_ok cap s ->
  input s = line ++ LF :: rest -> ~ In LF line -> len line < cap ->
  (turns_left s < fuel)%nat ->
  exists s',
    Scan_loop fuel s = Some (true, s') /\
    token s' = dropCR line /\ input s' = rest /\ scanner_ok cap s' /\
    os.herr (r s') = os.herr (r s) /\ scans s' = scans s.
Proof.
  revert s. induction fuel as [|fuel IH]; intros s Hok Hin Hno Hlen Hfuel;
    [lia|].
  destruct (line_in_two _ _ _ _ Hin Hno) as [(p2 & Hp & Hrest)|(l2 & Hl & Hu & Hnp)].
  - destruct (turn_line cap s line p2 Hok Hp Hno) as (s' & Ht & Htok & Hp' & Hr' & Hn' & Hok').
    exists s'. simpl. rewrite Ht.
    repeat (split; [try assumption; try reflexivity|]); try assumption.
    + unfold input. rewrite Hp', Hr'. symmetry. exact Hrest.
    + rewrite Hr'. reflexivity.
  - assert (He : err s = None).
    { destruct (ok_err Hok) as [He|(_ & Hnil & _)]; [exact He|].
      rewrite Hnil in Hu. destruct l2; discriminate. }
    assert (Hlp : len (pending s) < cap).
    { rewrite Hl, len_app in Hlen. pose proof (len_nonneg l2). lia. }
    destruct (turn_more cap s Hok He Hnp Hlp) as (s' & Ht & Hi' & Hh' & Hn' & Hok' & Hm).
    destruct (IH s' Hok' ltac:(congruence) Hno Hlen ltac:(lia))
      as (s2 & HS & Htok & Hi2 & Hok2 & Hh2 & Hn2).
    exists s2. simpl. rewrite Ht.
    repeat (split; [try assumption; congruence|]). congruence.
Qed.

(** The input is a last line without line feed, shorter than the cap:
    [Scan] delivers it. *)
Lemma Scan_loop_last (fuel : nat) (s : Scanner) (line : list ascii) :
  scanner_ok cap s ->
  input s = line -> line <> [] -> ~ In LF line -> len line < cap ->
  (turns_left s < fuel)%nat ->
  exists s',
    Scan_loop fuel s = Some (true, s') /\
    token s' = dropCR line /\ input s' = [] /\ scanner_ok cap s' /\
    os.herr (r s') = os.herr (r s) /\ scans s' = scans s.
Proof.
  revert s. induction fuel as [|fuel IH];
    intros s Hok Hin Hne Hno Hlen Hfuel; [lia|].
  assert (Hnp : ~ In LF (pending s)).
  { intros H. apply Hno. rewrite <- Hin. apply in_or_app. left. exact H. }
  destruct (err s) as [e0|] eqn:He.
  - assert (Hu : os.unread (r s) = []).
    { destruct (ok_err Hok) as [Hn|(_ & Hnil & _)]; congruence. }
    assert (Hp : pending s = line).
    { unfold input in Hin. rewrite Hu, app_nil_r in Hin. exact Hin. }
    destruct (turn_last cap s e0 Hok He ltac:(congruence) Hnp)
      as (s' & Ht & Htok & Hp' & Hr' & Hn' & Hok').
    exists s'. simpl. rewrite Ht.
    repeat (split; [try assumption; try congruence|]); try congruence.
    unfold input. rewrite Hp', Hr', Hu. reflexivity.
  - assert (Hlp : len (pending s) < cap).
    { rewrite <- Hin in Hlen. unfold input in Hlen. rewrite len_app in Hlen.
      pose proof (len_nonneg (os.unread (r s))). lia. }
    destruct (turn_more cap s Hok He Hnp Hlp) as (s' & Ht & Hi' & Hh' & Hn' & Hok' & Hm).
    destruct (IH s' Hok' ltac:(congruence) Hne Hno Hlen ltac:(lia))
      as (s2 & HS & Htok & Hi2 & Hok2 & Hh2 & Hn2).
    exists s2. simpl. rewrite Ht.
    repeat (split; [try assumption; congruence|]). congruence.
Qed.

(** No input is left: [Scan] returns false, and [Err] is the error of the
    read that found the end, unless that is the end of the file. *)
Lemma Scan_loop_end (fuel : nat) (s : Scanner) :
  scanner_ok cap s -> input s = [] ->
  (turns_left s < fuel)%nat ->
  exists s',
    Scan_loop fuel s = Some (false, s') /\
    Err s' = final_Err (r s) /\ scans s' = scans s.
Proof.
  revert s. induction fuel as [|fuel IH]; intros s Hok Hin Hfuel; [lia|].
  assert (Hp : pending s = []).
  { unfold input in Hin. apply app_eq_nil in Hin. tauto. }
  destruct (err s) as [e0|] eqn:He.
  - destruct (turn_end s e0 He Hp) as (s' & Ht & He' & Hr' & Hn').
    exists s'. simpl. rewrite Ht. split; [reflexivity|]. split; [|exact Hn'].
    unfold Err. rewrite He'.
    destruct (ok_err Hok) as [Hn|(Hf & _ & _)]; [congruence|].
    rewrite He in Hf. injection Hf as ->.
    unfold final_error, final_Err. destruct (os.herr (r s)); reflexivity.
  - assert (Hnp : ~ In LF (pending s)) by (rewrite Hp; intros []).
    assert (Hlp : len (pending s) < cap).
    { rewrite Hp, len_nil. pose proof (ok_buf Hok). lia. }
    destruct (turn_more cap s Hok He Hnp Hlp) as (s' & Ht & Hi' & Hh' & Hn' & Hok' & Hm).
    destruct (IH s' Hok' ltac:(congruence) ltac:(lia)) as (s2 & HS & HE & Hn2).
    exists s2. simpl. rewrite Ht. split; [exact HS|].
    split; [|congruence]. rewrite HE. unfold final_Err. rewrite Hh'.
    reflexivity.
Qed.

(** The input begins with as many bytes as the cap and no line feed among
    them: [Scan] returns false with [ErrTooLong]. *)
Lemma Scan_loop_too_long (fuel : nat) (s : Scanner) (big rest : list ascii) :
  scanner_ok cap s ->
  input s = big ++ rest -> ~ In LF big -> len big = cap ->
  (turns_left s < fuel)%nat ->
  exists s',
    Scan_loop fuel s = Some (false, s') /\
    Err s' = Some ErrTooLong /\ scans s' = scans s.
Proof.
  revert s. induction fuel as [|fuel IH]; intros s Hok Hin Hno Hlen Hfuel;
    [lia|].
  assert (Hple : len (pending s) <= len big).
  { pose proof (ok_end Hok). pose proof (ok_start Hok). pose proof (ok_buf Hok).
    unfold end_ in *. lia. }
  destruct (input_prefix s _ _ Hin Hple) as (b2 & Hb & Hu).
  assert (Hnp : ~ In LF (pending s)).
  { intros H. apply Hno. rewrite Hb. apply in_or_app. left. exact H. }
  assert (He : err s = None).
  { destruct (ok_err Hok) as [He|(_ & Hnil & Hroom)]; [exact He|].
    exfalso. rewrite Hnil in Hu. symmetry in Hu. apply app_eq_nil in Hu.
    destruct Hu as [-> _]. rewrite app_nil_r in Hb. subst big.
    pose proof (ok_start Hok). pose proof (ok_buf Hok). unfold end_ in *. lia. }
  destruct (Z.eq_dec (len (pending s)) cap) as [Hfull|Hless].
  - destruct (turn_too_long cap s Hok He Hnp Hfull) as (s' & Ht & He' & Hn').
    exists s'. simpl. rewrite Ht. split; [reflexivity|]. split; [|exact Hn'].
    unfold Err. rewrite He'. reflexivity.
  - destruct (turn_more cap s Hok He Hnp ltac:(lia))
      as (s' & Ht & Hi' & Hh' & Hn' & Hok' & Hm).
    destruct (IH s' Hok' ltac:(congruence) Hno Hlen ltac:(lia))
      as (s2 & HS & HE & Hn2).
    exists s2. simpl. rewrite Ht. split; [exact HS|]. split; [exact HE|].
    congruence.
Qed.

Lemma set_scans_ok (s : Scanner) (n : nat) :
  scanner_ok cap s -> scanner_ok cap (set_scans n s).
Proof. intros [? ? ? ? ? ?]. constructor; assumption. Qed.

End ScanFacts.

(** ** The lines of a file *)

Section LinesFacts.

Import bufio.

Local Open Scope Z_scope.

Lemma raw_lines_line (line rest : list ascii) :
  ~ In LF line -> raw_lines (line ++ LF :: rest) = line :: raw_lines rest.
Proof.
  induction line as [|x line IH]; intros Hno.
  - cbn [app raw_lines]. rewrite Ascii.eqb_refl. reflexivity.
  - rewrite <- app_comm_cons. cbn [raw_lines].
    destruct (Ascii.eqb_spec x LF) as [->|_].
    + exfalso. apply Hno. left. reflexivity.
    + rewrite IH by (intros H; apply Hno; right; exact H). reflexivity.
Qed.

Lemma raw_lines_last (line : list ascii) :
  ~ In LF line -> line <> [] -> raw_lines line = [line].
Proof.
  induction line as [|x line IH]; intros Hno Hne; [congruence|].
  cbn [raw_lines].
  destruct (Ascii.eqb_spec x LF) as [->|_].
  - exfalso. apply Hno. left. reflexivity.
  - destruct line as [|y line]; [reflexivity|].
    rewrite IH; [reflexivity| |discriminate].
    intros H. apply Hno. right. exact H.
Qed.

(** A byte sequence is empty, or begins with a line that a line feed ends,
    or is a last line without line feed. *)
Lemma first_line (u : list ascii) :
  u = [] \/
  (exists line rest, u = line ++ LF :: rest /\ ~ In LF line) \/
  (u <> [] /\ ~ In LF u).
Proof.
  induction u as [|x u IH]; [left; reflexivity|right].
  destruct (Ascii.eqb_spec x LF) as [->|Hx].
  - left. exists [], u. split; [reflexivity|intros []].
  - destruct IH as [->|[(line & rest & -> & Hno)|[Hne Hno]]].
    + right. split; [discriminate|]. intros [H|[]]. congruence.
    + left. exists (x :: line), rest. split; [reflexivity|].
      intros [H|H]; [congruence|auto].
    + right. split; [discriminate|]. intros [H|H]; [congruence|auto].
Qed.

Lemma In_takeZ (n : Z) (l : list ascii) (c : ascii) :
  In c (takeZ n l) -> In c l.
Proof.
  intros H. rewrite <- (takeZ_dropZ n l). apply in_or_app. left. exact H.
Qed.

End LinesFacts.

(** ** [Scan], and the loop of [GetFromFile] *)

Section GetFromFileFacts.

Import bufio podid.

Local Open Scope Z_scope.

Variable cap : Z.

Lemma Scan_fuel (s : Scanner) :
  (turns_left (set_scans (S (scans s)) s)
   < List.length (os.unread (r s)) + 2)%nat.
Proof.
  unfold turns_left. destruct s as [h mx tok bl st p e n]. simpl.
  destruct e; lia.
Qed.

Lemma Scan_line (s : Scanner) (line rest : list ascii) :
  scanner_ok cap s ->
  input s = line ++ LF :: rest -> ~ In LF line -> len line < cap ->
  exists s',
    Scan s = Some (true, s') /\
    token s' = dropCR line /\ input s' = rest /\ scanner_ok cap s' /\
    os.herr (r s') = os.herr (r s) /\ scans s' = S (scans s).
Proof.
  intros Hok Hin Hno Hlen.
  apply (Scan_loop_line cap _ (set_scans (S (scans s)) s) line rest);
    auto using set_scans_ok, Scan_fuel.
Qed.

Lemma Scan_last (s : Scanner) (line : list ascii) :
  scanner_ok cap s ->
  input s = line -> line <> [] -> ~ In LF line -> len line < cap ->
  exists s',
    Scan s = Some (true, s') /\
    token s' = dropCR line /\ input s' = [] /\ scanner_ok cap s' /\
    os.herr (r s') = os.herr (r s) /\ scans s' = S (scans s).
Proof.
  intros Hok Hin Hne Hno Hlen.
  apply (Scan_loop_last cap _ (set_scans (S (scans s)) s) line);
    auto using set_scans_ok, Scan_fuel.
Qed.

Lemma Scan_end (s : Scanner) :
  scanner_ok cap s -> input s = [] ->
  exists s',
    Scan s = Some (false, s') /\
    Err s' = final_Err (r s) /\ scans s' = S (scans s).
Proof.
  intros Hok Hin.
  apply (Scan_loop_end cap _ (set_scans (S (scans s)) s));
    auto using set_scans_ok, Scan_fuel.
Qed.

(** A first line as long as the cap or longer, ended or not. *)
Lemma Scan_too_long (s : Scanner) (line rest : list ascii) :
  scanner_ok cap s ->
  input s = line ++ rest -> ~ In LF line -> cap <= len line ->
  exists s',
    Scan s = Some (false, s') /\
    Err s' = Some ErrTooLong /\ scans s' = S (scans s).
Proof.
  intros Hok Hin Hno Hlen.
  pose proof (ok_buf Hok) as Hbuf.
  apply (Scan_loop_too_long cap _ (set_scans (S (scans s)) s)
           (takeZ cap line) (dropZ cap line ++ rest));
    auto using set_scans_ok, Scan_fuel.
  - change (input (set_scans (S (scans s)) s)) with (input s).
    rewrite app_assoc, takeZ_dropZ. exact Hin.
  - intros H. apply Hno. eapply In_takeZ. exact H.
  - rewrite len_takeZ by lia. lia.
Qed.

End GetFromFileFacts.

Section ScanRefines.

Import bufio podid.

Local Open Scope Z_scope.

Lemma final_Err_same (s s' : Scanner) :
  os.herr (r s') = os.herr (r s) -> final_Err (r s') = final_Err (r s).
Proof. unfold final_Err. intros ->. reflexivity. Qed.

(** The loop of [GetFromFile] does what [scan_spec] says of the lines of
    the input, in as many calls of [Scan]. *)
Lemma scan_refines (path : string) (fuel : nat) (s : Scanner) :
  scanner_ok line_cap s ->
  (List.length (input s) < fuel)%nat ->
  exists s',
    scan fuel path s =
      Some (fst (scan_spec path (final_Err (r s)) (raw_lines (input s))), s') /\
    scans s' =
      (scans s + snd (scan_spec path (final_Err (r s)) (raw_lines (input s))))%nat.
Proof.
  revert s. induction fuel as [|fuel IH]; intros s Hok Hfuel; [lia|].
  destruct (first_line (input s))
    as [Hin|[(line & rest & Hin & Hno)|[Hne Hno]]].
  - (* nothing left *)
    destruct (Scan_end line_cap s Hok Hin) as (s' & HS & HE & Hn).
    exists s'. rewrite Hin. cbn [scan raw_lines scan_spec fst snd].
    rewrite HS, HE. split; [|lia].
    destruct (final_Err (r s)); reflexivity.
  - rewrite Hin, raw_lines_line by exact Hno. cbn [scan scan_spec].
    destruct (Z.ltb_spec (len line) line_cap) as [Hlen|Hlen].
    + destruct (Scan_line line_cap s line rest Hok Hin Hno Hlen)
        as (s1 & HS & Htok & Hi1 & Hok1 & Hh1 & Hn1).
      rewrite HS.
      assert (HT : Text s1 = text line) by (unfold Text, text; congruence).
      rewrite HT.
      destruct (List.length (regexp.FindStringSubmatch podIDRegex (text line))
                =? 2)%nat.
      * exists s1. cbn [fst snd]. split; [reflexivity|lia].
      * assert (Hf : (List.length (input s1) < fuel)%nat).
        { rewrite Hi1. rewrite Hin, length_app in Hfuel. simpl in Hfuel. lia. }
        destruct (IH s1 Hok1 Hf) as (s2 & Hscan & Hn2).
        rewrite (final_Err_same s s1 Hh1), Hi1 in Hscan, Hn2.
        exists s2.
        destruct (scan_spec path (final_Err (r s)) (raw_lines rest))
          as [res n].
        cbn [fst snd] in *. split; [exact Hscan|lia].
    + destruct (Scan_too_long line_cap s line (LF :: rest) Hok Hin Hno Hlen)
        as (s' & HS & HE & Hn).
      exists s'. rewrite HS, HE. cbn [fst snd]. split; [reflexivity|lia].
  - rewrite (raw_lines_last (input s) Hno Hne). cbn [scan scan_spec].
    destruct (Z.ltb_spec (len (input s)) line_cap) as [Hlen|Hlen].
    + destruct (Scan_last line_cap s (input s) Hok eq_refl Hne Hno Hlen)
        as (s1 & HS & Htok & Hi1 & Hok1 & Hh1 & Hn1).
      rewrite HS.
      assert (HT : Text s1 = text (input s))
        by (unfold Text, text; congruence).
      rewrite HT.
      destruct (List.length
                  (regexp.FindStringSubmatch podIDRegex (text (input s)))
                =? 2)%nat.
      * exists s1. cbn [fst snd]. split; [reflexivity|lia].
      * assert (Hf : (List.length (input s1) < fuel)%nat).
        { rewrite Hi1. destruct (input s); [congruence|]. simpl in *. lia. }
        destruct (IH s1 Hok1 Hf) as (s2 & Hscan & Hn2).
        rewrite (final_Err_same s s1 Hh1), Hi1 in Hscan, Hn2.
        exists s2. cbn [raw_lines scan_spec fst snd] in Hscan, Hn2 |- *.
        destruct (final_Err (r s)); cbn [fst snd];
          (split; [exact Hscan|lia]).
    + destruct (Scan_too_long line_cap s (input s) [] Hok
                  ltac:(rewrite app_nil_r; reflexivity) Hno Hlen)
        as (s' & HS & HE & Hn).
      exists s'. rewrite HS, HE. cbn [fst snd]. split; [reflexivity|lia].
Qed.

(** The scanner that [GetFromFile] sets up. *)
Lemma new_scanner_ok (h : os.Handle) :
  scanner_ok line_cap (Buffer (64 * 1024) (1024 * 1024) (NewScanner h)).
Proof.
  constructor; unfold end_; simpl; unfold line_cap; try lia; auto.
  - rewrite len_nil. lia.
  - vm_compute. discriminate.
Qed.

(** [GetFromFile] on a file that opens does what [scan_spec] says of its
    lines, in as many calls of [Scan]. *)
Lemma GetFromFile_refines (fs : os.FS) (path : string) (f : os.File) :
  fs path = inr f ->
  exists sc,
    GetFromFile_scanner fs path =
      Some (fst (scan_spec path (option_map ErrPath (os.read_err f))
                           (raw_lines (os.contents f))), Some sc) /\
    scans sc = snd (scan_spec path (option_map ErrPath (os.read_err f))
                              (raw_lines (os.contents f))).
Proof.
  intros Hf. unfold GetFromFile_scanner, os.Open. rewrite Hf.
  set (h := os.mkHandle (os.contents f) (os.chunk f) (os.read_err f)).
  set (s := Buffer (64 * 1024) (1024 * 1024) (NewScanner h)).
  assert (Hin : input s = os.contents f) by reflexivity.
  assert (Hfin : final_Err (r s) = option_map ErrPath (os.read_err f)).
  { unfold final_Err. simpl. destruct (os.read_err f); reflexivity. }
  destruct (scan_refines path (List.length (os.unread h) + 2) s
              (new_scanner_ok h))
    as (sc & Hscan & Hn).
  { rewrite Hin. simpl. lia. }
  rewrite Hfin, Hin in Hscan, Hn.
  exists sc. rewrite Hscan. split; [reflexivity|exact Hn].
Qed.

(** A file that does not open. *)
Lemma GetFromFile_open_error (fs : os.FS) (path : string) (e : PathError) :
  fs path = inl e ->
  GetFromFile fs path =
    Some (EmptyString,
          Some (ErrorfW (String.append "failed to open " path) (ErrPath e))).
Proof.
  intros Hf. unfold GetFromFile, GetFromFile_scanner, os.Open. rewrite Hf.
  reflexivity.
Qed.

End ScanRefines.

(** ** Package regexp: the pod pattern *)

Section RegexpFacts.

Import regexp strings podid.

Local Open Scope string_scope.

Lemma append_nil_r (s : string) : s ++ "" = s.
Proof. induction s as [|c s IH]; simpl; [reflexivity|]. f_equal. exact IH. Qed.


Lemma strip_prefix_app (p s : string) : strip_prefix p (p ++ s) = Some s.
Proof.
  induction p as [|c p IH]; simpl; [reflexivity|].
  rewrite Ascii.eqb_refl. exact IH.
Qed.

Lemma strip_prefix_inv (p s rest : string) :
  strip_prefix p s = Some rest -> s = p ++ rest.
Proof.
  revert s. induction p as [|c p IH]; intros s H; simpl in *.
  - injection H as ->. reflexivity.
  - destruct s as [|d s]; [discriminate|].
    destruct (Ascii.eqb_spec c d) as [->|_]; [|discriminate].
    f_equal. apply IH. exact H.
Qed.

Lemma take_class_app (n : nat) (g s : string) :
  String.length g = n ->
  forallb lower_hex (list_ascii_of_string g) = true ->
  take_class n (g ++ s) = Some (g, s).
Proof.
  revert g. induction n as [|n IH]; intros g Hlen Hhex.
  - destruct g; [reflexivity|discriminate].
  - destruct g as [|c g]; [discriminate|].
    simpl in Hlen, Hhex |- *. apply andb_true_iff in Hhex.
    destruct Hhex as [Hc Hg]. rewrite Hc, IH by (auto; lia). reflexivity.
Qed.

Lemma take_class_inv (n : nat) (s m rest : string) :
  take_class n s = Some (m, rest) ->
  s = m ++ rest /\ String.length m = n /\
  forallb lower_hex (list_ascii_of_string m) = true.
Proof.
  revert s m. induction n as [|n IH]; intros s m H; simpl in H.
  - injection H as <- <-. auto.
  - destruct s as [|c s]; [discriminate|].
    destruct (lower_hex c) eqn:Hc; [|discriminate].
    destruct (take_class n s) as [[m' rest']|] eqn:Ht; [|discriminate].
    injection H as <- <-.
    destruct (IH _ _ Ht) as (-> & Hlen & Hhex).
    simpl. rewrite Hc, Hlen, Hhex. auto.
Qed.

(** The class of the pattern is the set of the sixteen digits. *)
Lemma hex_digit_lower_hex (c : ascii) : hex_digit c = lower_hex c.
Proof. destruct c as [[] [] [] [] [] [] [] []]; reflexivity. Qed.

Lemma forallb_hex (g : string) :
  forallb hex_digit (list_ascii_of_string g) =
  forallb lower_hex (list_ascii_of_string g).
Proof.
  induction (list_ascii_of_string g) as [|c l IH]; [reflexivity|].
  simpl. rewrite hex_digit_lower_hex, IH. reflexivity.
Qed.

(** A group of digits holds no hyphen. *)
Lemma hex_no_hyphen (g : string) :
  forallb lower_hex (list_ascii_of_string g) = true ->
  ~ In "-"%char (list_ascii_of_string g).
Proof.
  intros H Hin. rewrite forallb_forall in H. specialize (H _ Hin).
  discriminate.
Qed.

Lemma Split_no_sep (g : string) (sep : ascii) :
  ~ In sep (list_ascii_of_string g) -> Split g sep = [g].
Proof.
  induction g as [|c g IH]; intros Hno; [reflexivity|].
  simpl in Hno |- *. destruct (Ascii.eqb_spec c sep) as [->|_].
  - exfalso. apply Hno. left. reflexivity.
  - rewrite IH by (intros H; apply Hno; right; exact H). reflexivity.
Qed.

Lemma Split_app_sep (g s : string) (sep : ascii) :
  ~ In sep (list_ascii_of_string g) ->
  Split (g ++ String sep s) sep = g :: Split s sep.
Proof.
  induction g as [|c g IH]; intros Hno.
  - simpl. rewrite Ascii.eqb_refl. reflexivity.
  - simpl in Hno |- *. destruct (Ascii.eqb_spec c sep) as [->|_].
    + exfalso. apply Hno. left. reflexivity.
    + rewrite IH by (intros H; apply Hno; right; exact H). reflexivity.
Qed.

(** Joining the segments with the separator gives the string back. *)
Lemma Join_Split (s : string) (sep : ascii) :
  Join (Split s sep) (String sep "") = s.
Proof.
  induction s as [|c s IH]; [reflexivity|].
  simpl. destruct (Ascii.eqb c sep) eqn:Hc.
  - apply Ascii.eqb_eq in Hc. subst c.
    destruct (Split s sep) as [|seg segs] eqn:HS;
      [exfalso; revert HS; apply Split_not_nil|].
    cbn [Join]. simpl. f_equal. exact IH.
  - destruct (Split s sep) as [|seg segs] eqn:HS;
      [exfalso; revert HS; apply Split_not_nil|].
    destruct segs as [|seg' segs]; simpl in IH |- *; f_equal; exact IH.
Qed.

End RegexpFacts.

Section PodPattern.

Import regexp strings podid.

Local Open Scope string_scope.

Lemma hex_group_digits (n : nat) (g : string) :
  hex_group n g = true <-> digits n g.
Proof.
  unfold hex_group, digits. rewrite andb_true_iff, Nat.eqb_eq, forallb_hex.
  reflexivity.
Qed.

Lemma cons_append (c : ascii) (s : string) : String c "" ++ s = String c s.
Proof. reflexivity. Qed.

(** A UUID is five groups of digits with hyphens between them. *)
Lemma is_uuid_groups (u : string) :
  is_uuid u = true <->
  exists g1 g2 g3 g4 g5,
    u = g1 ++ "-" ++ g2 ++ "-" ++ g3 ++ "-" ++ g4 ++ "-" ++ g5 /\
    digits 8 g1 /\ digits 4 g2 /\ digits 4 g3 /\ digits 4 g4 /\ digits 12 g5.
Proof.
  unfold is_uuid. split.
  - intros H. pose proof (Join_Split u "-"%char) as HJ.
    destruct (Split u "-"%char) as [|g1 [|g2 [|g3 [|g4 [|g5 [|g6 l]]]]]];
      try discriminate.
    repeat rewrite andb_true_iff in H. rewrite !hex_group_digits in H.
    exists g1, g2, g3, g4, g5. cbn [Join] in HJ. intuition auto.
  - intros (g1 & g2 & g3 & g4 & g5 & -> & H1 & H2 & H3 & H4 & H5).
    rewrite !cons_append.
    rewrite !Split_app_sep, Split_no_sep by (apply hex_no_hyphen; firstorder).
    repeat rewrite andb_true_iff. rewrite !hex_group_digits. auto.
Qed.

Ltac match_step H :=
  cbv beta iota in H;
  match type of H with
  | context [strip_prefix ?p ?s] =>
      let s1 := fresh "s" in
      let E := fresh "E" in
      destruct (strip_prefix p s) as [s1|] eqn:E; [|discriminate H];
      apply strip_prefix_inv in E; subst s
  | context [take_class ?n ?s] =>
      let g := fresh "g" in
      let s1 := fresh "s" in
      let E := fresh "E" in
      let Hd := fresh "Hd" in
      destruct (take_class n s) as [[g s1]|] eqn:E; [|discriminate H];
      apply take_class_inv in E; destruct E as (E & Hd); subst s
  end.

(** What the pod pattern matches at the beginning of a string: [/pods/], a
    UUID and [/]; the UUID is the one captured text. *)
Lemma match_here_pod (s m rest : string) (caps : list string) :
  match_here podIDRegex s = Some (m, rest, caps) <->
  exists u,
    is_uuid u = true /\ m = "/pods/" ++ u ++ "/" /\ caps = [u] /\
    s = "/pods/" ++ u ++ "/" ++ rest.
Proof.
  split.
  - intros H. unfold podIDRegex in H. cbn [match_here] in H.
    do 11 match_step H.
    cbv beta iota in H. injection H as <- <- <-.
    exists (g ++ "-" ++ g0 ++ "-" ++ g1 ++ "-" ++ g2 ++ "-" ++ g3).
    split; [|split; [|split]].
    + apply is_uuid_groups. exists g, g0, g1, g2, g3. unfold digits.
      split; [reflexivity|tauto].
    + reflexivity.
    + reflexivity.
    + rewrite !append_assoc. reflexivity.
  - intros (u & Hu & -> & -> & ->).
    apply is_uuid_groups in Hu.
    destruct Hu as (g1 & g2 & g3 & g4 & g5 & -> & [? ?] & [? ?] & [? ?] &
                    [? ?] & [? ?]).
    unfold podIDRegex. cbn [match_here].
    rewrite strip_prefix_app. rewrite !append_assoc.
    repeat (rewrite take_class_app by assumption;
            try rewrite strip_prefix_app).
    cbn [app]. rewrite !append_assoc. reflexivity.
Qed.

End PodPattern.

Section FirstMatch.

Import regexp strings podid.

Local Open Scope string_scope.

Lemma pod_at_0 (line u : string) :
  pod_at line 0 u <->
  is_uuid u = true /\ exists post, line = "/pods/" ++ u ++ "/" ++ post.
Proof.
  unfold pod_at. split.
  - intros (Hu & pre & post & Hlen & ->).
    destruct pre; [|discriminate]. split; [exact Hu|]. exists post. reflexivity.
  - intros (Hu & post & ->). split; [exact Hu|]. exists "", post. auto.
Qed.

Lemma pod_at_S (c : ascii) (line : string) (k : nat) (u : string) :
  pod_at (String c line) (S k) u <-> pod_at line k u.
Proof.
  unfold pod_at. split.
  - intros (Hu & pre & post & Hlen & Heq). split; [exact Hu|].
    destruct pre as [|d pre]; [discriminate|].
    injection Hlen as Hlen. injection Heq as _ Heq.
    exists pre, post. auto.
  - intros (Hu & pre & post & Hlen & ->). split; [exact Hu|].
    exists (String c pre), post. simpl. auto.
Qed.

Lemma pod_at_empty (k : nat) (u : string) : ~ pod_at "" k u.
Proof.
  intros (_ & pre & post & _ & Heq). destruct pre; discriminate.
Qed.

(** The pattern matches at the beginning of a line exactly when it occurs
    there. *)
Lemma match_here_pod_at (line : string) :
  (exists m rest caps, match_here podIDRegex line = Some (m, rest, caps)) <->
  (exists u, pod_at line 0 u).
Proof.
  split.
  - intros (m & rest & caps & H). apply match_here_pod in H.
    destruct H as (u & Hu & _ & _ & ->). exists u. apply pod_at_0.
    split; [exact Hu|]. exists rest. reflexivity.
  - intros (u & H). destruct (proj1 (pod_at_0 _ _) H) as (Hu & post & ->).
    exists ("/pods/" ++ u ++ "/"), post, [u]. apply match_here_pod.
    exists u. auto.
Qed.

(** [FindStringSubmatch] returns the leftmost occurrence and its UUID. *)
Lemma FindStringSubmatch_first (line : string) (u : string) :
  first_pod line u ->
  FindStringSubmatch podIDRegex line = ["/pods/" ++ u ++ "/"; u].
Proof.
  intros (k & Hat & Hmin). revert k Hat Hmin.
  induction line as [|c line IH]; intros k Hat Hmin.
  - exfalso. eapply pod_at_empty. exact Hat.
  - destruct k as [|k].
    + destruct (proj1 (pod_at_0 _ _) Hat) as (Hu & post & Heq).
      assert (HM : match_here podIDRegex (String c line) =
                   Some ("/pods/" ++ u ++ "/", post, [u])).
      { apply match_here_pod. exists u. auto. }
      cbn [FindStringSubmatch]. rewrite HM. reflexivity.
    + cbn [FindStringSubmatch].
      destruct (match_here podIDRegex (String c line))
        as [[[m rest] caps]|] eqn:HM.
      * exfalso.
        destruct (proj1 (match_here_pod_at (String c line))) as (u0 & H0).
        { exists m, rest, caps. exact HM. }
        specialize (Hmin _ _ H0). lia.
      * apply (IH k).
        -- exact (proj1 (pod_at_S c line k u) Hat).
        -- intros k' u' H'.
           specialize (Hmin _ _ (proj2 (pod_at_S c line k' u') H')). lia.
Qed.

(** [FindStringSubmatch] returns the nil slice for a line without
    occurrence. *)
Lemma FindStringSubmatch_none (line : string) :
  ~ matches_pod line -> FindStringSubmatch podIDRegex line = [].
Proof.
  induction line as [|c line IH]; intros Hno.
  - cbn [FindStringSubmatch].
    destruct (match_here podIDRegex "") as [[[m rest] caps]|] eqn:HM;
      [|reflexivity].
    exfalso. destruct (proj1 (match_here_pod_at "")) as (u0 & H0).
    { exists m, rest, caps. exact HM. }
    eapply pod_at_empty. exact H0.
  - cbn [FindStringSubmatch].
    destruct (match_here podIDRegex (String c line))
      as [[[m rest] caps]|] eqn:HM.
    + exfalso. destruct (proj1 (match_here_pod_at (String c line)))
        as (u0 & H0).
      { exists m, rest, caps. exact HM. }
      apply Hno. exists 0, u0. exact H0.
    + apply IH. intros (k & u & H). apply Hno. exists (S k), u.
      exact (proj2 (pod_at_S c line k u) H).
Qed.

(** Every line either does not match, or has a leftmost occurrence. *)
Lemma first_pod_or_none (line : string) :
  ~ matches_pod line \/ exists u, first_pod line u.
Proof.
  induction line as [|c line IH].
  - left. intros (k & u & H). eapply pod_at_empty. exact H.
  - destruct (match_here podIDRegex (String c line))
      as [[[m rest] caps]|] eqn:HM.
    + right. destruct (proj1 (match_here_pod_at (String c line)))
        as (u0 & H0).
      { exists m, rest, caps. exact HM. }
      exists u0, 0. split; [exact H0|]. intros. lia.
    + assert (Hno0 : forall u, ~ pod_at (String c line) 0 u).
      { intros u H. destruct (proj2 (match_here_pod_at (String c line)))
          as (m & rest & caps & HM'); [exists u; exact H|congruence]. }
      destruct IH as [Hno|(u & k & Hat & Hmin)].
      * left. intros (k & u & H). destruct k as [|k].
        -- eapply Hno0. exact H.
        -- apply Hno. exists k, u. exact (proj1 (pod_at_S c line k u) H).
      * right. exists u, (S k).
        split; [exact (proj2 (pod_at_S c line k u) Hat)|].
        intros k' u' H'. destruct k' as [|k'].
        -- exfalso. eapply Hno0. exact H'.
        -- specialize (Hmin _ _ (proj1 (pod_at_S c line k' u') H')). lia.
Qed.

End FirstMatch.

(** ** [GetFromFile] over the lines of the file *)

Section GetFromFileLines.

Import bufio regexp podid.

Local Open Scope Z_scope.

(** The raw lines behind the lines of a file. *)
Lemma lines_split (b : list ascii) (before : list string) (line : string)
    (after : list string) :
  lines b = before ++ line :: after ->
  exists rb rl ra,
    raw_lines b = rb ++ rl :: ra /\ map text rb = before /\ text rl = line /\
    Forall (fun l => len l < line_cap) rb /\ len rl < line_cap.
Proof.
  unfold lines. generalize (raw_lines b) as ls. intros ls. revert before.
  induction ls as [|l ls IH]; intros before H.
  - destruct before; discriminate.
  - cbn [within_cap] in H.
    destruct (Z.ltb_spec (len l) line_cap) as [Hl|Hl];
      [|destruct before; discriminate].
    destruct before as [|b0 before]; cbn [map app] in H;
      injection H as H0 H.
    + exists [], l, ls. auto.
    + destruct (IH before H) as (rb & rl & ra & -> & Hb & Hrl & Hall & Hlen).
      exists (l :: rb), rl, ra. cbn [map app]. rewrite H0, Hb.
      repeat split; auto.
Qed.

Lemma scan_spec_found (path : string) (final : option error)
    (rb : list (list ascii)) (rl : list ascii) (ra : list (list ascii))
    (u : string) :
  Forall (fun l => len l < line_cap) rb ->
  Forall (fun l => ~ matches_pod (text l)) rb ->
  len rl < line_cap -> first_pod (text rl) u ->
  scan_spec path final (rb ++ rl :: ra) = ((u, None), S (List.length rb)).
Proof.
  intros Hcap Hno Hlen Hfirst.
  induction rb as [|l rb IH]; cbn [app scan_spec].
  - replace (len rl <? line_cap) with true by (symmetry; apply Z.ltb_lt; lia).
    rewrite (FindStringSubmatch_first _ _ Hfirst). reflexivity.
  - inversion Hcap as [|? ? Hl Hcap']. inversion Hno as [|? ? Hn Hno']. subst.
    replace (len l <? line_cap) with true by (symmetry; apply Z.ltb_lt; lia).
    rewrite (FindStringSubmatch_none _ Hn). cbn [List.length Nat.eqb].
    rewrite (IH Hcap' Hno'). reflexivity.
Qed.

Lemma scan_spec_none (path : string) (final : option error)
    (ls : list (list ascii)) :
  Forall (fun l => len l < line_cap) ls ->
  Forall (fun l => ~ matches_pod (text l)) ls ->
  fst (scan_spec path final ls) =
    (EmptyString,
     Some (match final with
           | Some e => ErrorfW (String.append "error reading " path) e
           | None => ErrPodIDNotFound
           end)).
Proof.
  intros Hcap Hno.
  induction ls as [|l ls IH]; cbn [scan_spec].
  - destruct final; reflexivity.
  - inversion Hcap as [|? ? Hl Hcap']. inversion Hno as [|? ? Hn Hno']. subst.
    replace (len l <? line_cap) with true by (symmetry; apply Z.ltb_lt; lia).
    rewrite (FindStringSubmatch_none _ Hn). cbn [List.length Nat.eqb].
    specialize (IH Hcap' Hno').
    destruct (scan_spec path final ls) as [res n]. exact IH.
Qed.

Lemma within_cap_all (ls : list (list ascii)) :
  Forall (fun l => len l < line_cap) ls -> within_cap ls = ls.
Proof.
  induction 1 as [|l ls Hl _ IH]; [reflexivity|].
  cbn [within_cap].
  replace (len l <? line_cap) with true by (symmetry; apply Z.ltb_lt; lia).
  rewrite IH. reflexivity.
Qed.

(** [GetFromFile] returns [ErrPodIDNotFound] only at the end of a file that
    was read completely. *)
Lemma scan_spec_not_found (path : string) (o : option PathError)
    (ls : list (list ascii)) (s : string) (err : error) :
  fst (scan_spec path (option_map ErrPath o) ls) = (s, Some err) ->
  errors.Is err ErrPodIDNotFound = true ->
  o = None /\ Forall (fun l => len l < line_cap) ls.
Proof.
  induction ls as [|l ls IH]; cbn [scan_spec]; intros H HIs.
  - destruct o as [e|]; cbn [option_map fst] in H.
    + injection H as _ <-. discriminate.
    + auto.
  - destruct (Z.ltb_spec (len l) line_cap) as [Hl|Hl].
    + destruct (List.length (FindStringSubmatch podIDRegex (text l)) =? 2)%nat.
      * discriminate.
      * destruct (scan_spec path (option_map ErrPath o) ls) as [res n].
        destruct (IH H HIs) as [-> Hall]. auto.
    + cbn [fst] in H. injection H as _ <-. discriminate.
Qed.

(** The first line that matches decides, whatever follows it. *)
Lemma GetFromFile_first_match (fs : os.FS) (path : string) (f : os.File)
    (before : list string) (line : string) (after : list string)
    (u : string) :
  fs path = inr f ->
  lines (os.contents f) = before ++ line :: after ->
  Forall (fun l => ~ matches_pod l) before ->
  first_pod line u ->
  exists sc,
    GetFromFile_scanner fs path = Some ((u, None), Some sc) /\
    scans sc = S (List.length before).
Proof.
  intros Hf Hlines Hno Hfirst.
  destruct (lines_split _ _ _ _ Hlines)
    as (rb & rl & ra & Hraw & Hb & Hrl & Hcap & Hlen).
  assert (Hno' : Forall (fun l => ~ matches_pod (text l)) rb).
  { rewrite <- Hb in Hno. rewrite Forall_forall in Hno |- *.
    intros l Hl. apply Hno, in_map, Hl. }
  assert (Hfirst' : first_pod (text rl) u) by (rewrite Hrl; exact Hfirst).
  destruct (GetFromFile_refines fs path f Hf) as (sc & HG & Hn).
  rewrite Hraw, (scan_spec_found path _ rb rl ra u Hcap Hno' Hlen Hfirst')
    in HG, Hn.
  exists sc. cbn [fst snd] in HG, Hn. rewrite <- Hb, length_map.
  split; assumption.
Qed.

End GetFromFileLines.

(** ** Totality, overlong lines, and the carriage return *)

Section MoreGetFromFileFacts.

Import bufio regexp podid.

Local Open Scope string_scope.

(** [Scan] returns. *)
Lemma Scan_returns (cap : Z) (s : Scanner) :
  scanner_ok cap s -> exists b s', Scan s = Some (b, s').
Proof.
  intros Hok.
  destruct (first_line (input s))
    as [Hin|[(line & rest & Hin & Hno)|[Hne Hno]]].
  - destruct (Scan_end cap s Hok Hin) as (s' & HS & _). eauto.
  - destruct (Z.lt_ge_cases (len line) cap) as [Hlen|Hlen].
    + destruct (Scan_line cap s line rest Hok Hin Hno Hlen) as (s' & HS & _).
      eauto.
    + destruct (Scan_too_long cap s line (LF :: rest) Hok Hin Hno Hlen)
        as (s' & HS & _). eauto.
  - destruct (Z.lt_ge_cases (len (input s)) cap) as [Hlen|Hlen].
    + destruct (Scan_last cap s (input s) Hok eq_refl Hne Hno Hlen)
        as (s' & HS & _). eauto.
    + destruct (Scan_too_long cap s (input s) [] Hok
                  ltac:(rewrite app_nil_r; reflexivity) Hno Hlen)
        as (s' & HS & _). eauto.
Qed.

(** [GetFromFile] returns. *)
Lemma GetFromFile_returns (fs : os.FS) (path : string) :
  exists res, GetFromFile fs path = Some res.
Proof.
  destruct (fs path) as [e|f] eqn:Hf.
  - eexists. apply GetFromFile_open_error. exact Hf.
  - destruct (GetFromFile_refines fs path f Hf) as (sc & HG & _).
    eexists. unfold GetFromFile. rewrite HG. reflexivity.
Qed.

(** A line as long as the cap, or longer, that no matching line precedes:
    [GetFromFile] returns the error [bufio.ErrTooLong], wrapped. *)
Lemma GetFromFile_too_long (fs : os.FS) (path : string) (f : os.File)
    (rb : list (list ascii)) (rl : list ascii) (ra : list (list ascii)) :
  fs path = inr f ->
  raw_lines (os.contents f) = (rb ++ rl :: ra)%list ->
  Forall (fun l => (len l < line_cap)%Z) rb ->
  Forall (fun l => ~ matches_pod (text l)) rb ->
  (line_cap <= len rl)%Z ->
  GetFromFile fs path =
    Some ("", Some (ErrorfW ("error reading " ++ path) ErrTooLong)).
Proof.
  intros Hf Hraw Hcap Hno Hlen.
  destruct (GetFromFile_refines fs path f Hf) as (sc & HG & _).
  unfold GetFromFile. rewrite HG, Hraw. f_equal. clear HG Hraw.
  induction rb as [|l rb IH]; cbn [app scan_spec].
  - replace (len rl <? line_cap)%Z with false
      by (symmetry; apply Z.ltb_ge; exact Hlen).
    reflexivity.
  - inversion Hcap as [|? ? Hl Hcap']. inversion Hno as [|? ? Hn Hno']. subst.
    replace (len l <? line_cap)%Z with true
      by (symmetry; apply Z.ltb_lt; assumption).
    rewrite (FindStringSubmatch_none _ Hn). cbn [List.length Nat.eqb].
    specialize (IH Hcap' Hno').
    destruct (scan_spec path (option_map ErrPath (os.read_err f))
                        (rb ++ rl :: ra)) as [res n].
    exact IH.
Qed.

Lemma string_of_list_ascii_app (a b : list ascii) :
  string_of_list_ascii (a ++ b) =
  string_of_list_ascii a ++ string_of_list_ascii b.
Proof. induction a as [|x a IH]; simpl; [reflexivity|]. f_equal. exact IH. Qed.

Lemma list_ascii_of_string_app (a b : string) :
  list_ascii_of_string (a ++ b) =
  (list_ascii_of_string a ++ list_ascii_of_string b)%list.
Proof. induction a as [|x a IH]; simpl; [reflexivity|]. f_equal. exact IH. Qed.

(** An occurrence of the pod pattern ends with [/]: dropping a terminal
    carriage return from the line keeps it where it is. *)
Lemma pod_at_text (l : list ascii) (k : nat) (u : string) :
  pod_at (string_of_list_ascii l) k u -> pod_at (text l) k u.
Proof.
  intros (Hu & pre & post & Hk & Heq). unfold text, dropCR.
  destruct ((0 <? len l)%Z && Ascii.eqb (last l Ascii.zero) CR)%bool eqn:Hc.
  - apply andb_true_iff in Hc. destruct Hc as [_ Hc].
    apply Ascii.eqb_eq in Hc.
    assert (Hl : l = (list_ascii_of_string (pre ++ "/pods/" ++ u ++ "/") ++
                      list_ascii_of_string post)%list).
    { rewrite <- list_ascii_of_string_app, !append_assoc, <- Heq.
      symmetry. apply list_ascii_of_string_of_list_ascii. }
    destruct post as [|c post].
    + exfalso. rewrite Hl in Hc. cbn [list_ascii_of_string] in Hc.
      rewrite app_nil_r in Hc.
      replace (pre ++ "/pods/" ++ u ++ "/")
        with ((pre ++ "/pods/" ++ u) ++ "/") in Hc
        by (rewrite !append_assoc; reflexivity).
      rewrite list_ascii_of_string_app in Hc. cbn [list_ascii_of_string] in Hc.
      rewrite last_last in Hc. discriminate.
    + split; [exact Hu|].
      exists pre,
        (string_of_list_ascii
           (removelast (list_ascii_of_string (String c post)))).
      split; [exact Hk|].
      rewrite Hl, removelast_app by discriminate.
      rewrite string_of_list_ascii_app, string_of_list_ascii_of_string.
      rewrite !append_assoc. reflexivity.
  - split; [exact Hu|]. exists pre, post. auto.
Qed.

Lemma pod_at_raw (l : list ascii) (k : nat) (u : string) :
  pod_at (text l) k u -> pod_at (string_of_list_ascii l) k u.
Proof.
  unfold text, dropCR.
  destruct ((0 <? len l)%Z && Ascii.eqb (last l Ascii.zero) CR)%bool eqn:Hc;
    [|exact (fun H => H)].
  intros (Hu & pre & post & Hk & Heq).
  apply andb_true_iff in Hc. destruct Hc as [Hlen Hc].
  assert (Hne : l <> []).
  { intros ->. discriminate. }
  split; [exact Hu|].
  exists pre, (post ++ string_of_list_ascii [last l Ascii.zero]).
  split; [exact Hk|].
  rewrite (app_removelast_last Ascii.zero Hne) at 1.
  rewrite string_of_list_ascii_app, Heq, !append_assoc. reflexivity.
Qed.

(** The leftmost occurrence in a line is the same with and without the
    terminal carriage return. *)
Lemma first_pod_text (l : list ascii) (u : string) :
  first_pod (text l) u <-> first_pod (string_of_list_ascii l) u.
Proof.
  split; intros (k & Hat & Hmin); exists k.
  - split; [apply pod_at_raw; exact Hat|].
    intros k' u' H'. apply (Hmin k' u'), pod_at_text, H'.
  - split; [apply pod_at_text; exact Hat|].
    intros k' u' H'. apply (Hmin k' u'), pod_at_raw, H'.
Qed.

Lemma matches_pod_text (l : list ascii) :
  matches_pod (string_of_list_ascii l) -> matches_pod (text l).
Proof. intros (k & u & H). exists k, u. apply pod_at_text. exact H. Qed.

End MoreGetFromFileFacts.

(** ** Deciding the hypotheses on given lines *)

Section Checks.

Import bufio regexp podid.

Local Open Scope string_scope.

Lemma matches_first_pod (line : string) :
  matches_pod line -> exists u, first_pod line u.
Proof.
  intros H. destruct (first_pod_or_none line) as [Hno|Hu]; [contradiction|].
  exact Hu.
Qed.

Lemma no_match_check (line : string) :
  FindStringSubmatch podIDRegex line = [] -> ~ matches_pod line.
Proof.
  intros HF Hm. destruct (matches_first_pod line Hm) as (u & Hu).
  rewrite (FindStringSubmatch_first line u Hu) in HF. discriminate.
Qed.

Lemma matches_check (line : string) :
  (List.length (FindStringSubmatch podIDRegex line) =? 2)%nat = true ->
  matches_pod line.
Proof.
  intros HF. destruct (first_pod_or_none line) as [Hno|(u & k & Hat & _)].
  - rewrite (FindStringSubmatch_none line Hno) in HF. discriminate.
  - exists k, u. exact Hat.
Qed.


Lemma not_in_check (c : ascii) (l : list ascii) :
  forallb (fun x => negb (Ascii.eqb x c)) l = true -> ~ In c l.
Proof.
  intros H Hin. rewrite forallb_forall in H. specialize (H c Hin).
  rewrite Ascii.eqb_refl in H. discriminate.
Qed.

End Checks.

(** ** Claims about [podid.GetFromFile] *)

Section GetFromFileClaims.

Import bufio regexp podid.

Local Open Scope string_scope.





(** C6.  A file that is read completely (no read fails, no line reaches the
    cap of the scanner) and in which no line matches the pod pattern:
    [GetFromFile] returns the empty identifier and [ErrPodIDNotFound], which
    [errors.Is] recognizes.  The error of a file that does not open, and any
    error of a file that is not read completely, is not
    [ErrPodIDNotFound]. *)
Theorem GetFromFile_not_found
    (fs : os.FS) (path : string) (f : os.File) :
  fs path = inr f ->
  read_completely f ->
  Forall (fun l => ~ matches_pod l) (lines (os.contents f)) ->
  GetFromFile fs path = Some (EmptyString, Some ErrPodIDNotFound) /\
  errors.Is ErrPodIDNotFound ErrPodIDNotFound = true /\
  (forall (fs' : os.FS) (path' : string) (e : PathError),
      fs' path' = inl e ->
      exists err,
        GetFromFile fs' path' = Some (EmptyString, Some err) /\
        errors.Is err ErrPodIDNotFound = false) /\
  (forall (fs' : os.FS) (path' : string) (f' : os.File) (id : string)
          (err : error),
      fs' path' = inr f' -> ~ read_completely f' ->
      GetFromFile fs' path' = Some (id, Some err) ->
      errors.Is err ErrPodIDNotFound = false).
Proof.
  intros Hf [Hread Hcap] Hno.
  split; [|split; [reflexivity|split]].
  - destruct (GetFromFile_refines fs path f Hf) as (sc & HG & _).
    unfold GetFromFile. rewrite HG. f_equal.
    unfold lines in Hno. rewrite (within_cap_all _ Hcap) in Hno.
    rewrite scan_spec_none; [rewrite Hread; reflexivity|exact Hcap|].
    rewrite Forall_forall in Hno |- *. intros l Hl. apply Hno, in_map, Hl.
  - intros fs' path' e He. eexists. split.
    + apply GetFromFile_open_error. exact He.
    + reflexivity.
  - intros fs' path' f' id err Hf' Hnot HG.
    destruct (errors.Is err ErrPodIDNotFound) eqn:HIs; [|reflexivity].
    exfalso. apply Hnot.
    destruct (GetFromFile_refines fs' path' f' Hf') as (sc & HG' & _).
    unfold GetFromFile in HG. rewrite HG' in HG. injection HG as HG.
    apply (scan_spec_not_found path' _ _ id err HG HIs).
Qed.

(** C7.  A file that is one line, ended by a line feed or not, longer than
    70 KiB and shorter than the cap of 1 MiB of the scanner, in which the
    pod pattern occurs somewhere: [GetFromFile] returns with the nil error
    the UUID of the leftmost occurrence in the line. *)
Theorem GetFromFile_long_line
    (fs : os.FS) (path : string) (f : os.File) (line : list ascii) :
  fs path = inr f ->
  os.contents f = line \/ os.contents f = (line ++ [LF])%list ->
  ~ In LF line ->
  (70 * 1024 < len line < 1024 * 1024)%Z ->
  matches_pod (string_of_list_ascii line) ->
  exists u,
    first_pod (string_of_list_ascii line) u /\
    GetFromFile fs path = Some (u, None).
Proof.
  intros Hf Hc Hno [Hlong Hcap] Hm.
  destruct (matches_first_pod _ (matches_pod_text line Hm)) as (u & Hu).
  exists u. split; [apply first_pod_text; exact Hu|].
  assert (Hne : line <> []).
  { intros ->. rewrite len_nil in Hlong. lia. }
  assert (Hraw : raw_lines (os.contents f) = [line]).
  { destruct Hc as [->| ->].
    - apply raw_lines_last; assumption.
    - apply (raw_lines_line line [] Hno). }
  assert (Hlines : lines (os.contents f) = ([] ++ text line :: [])%list).
  { unfold lines. rewrite Hraw. cbn [within_cap].
    replace (len line <? line_cap)%Z with true
      by (symmetry; apply Z.ltb_lt; exact Hcap).
    reflexivity. }
  destruct (GetFromFile_first_match fs path f [] (text line) [] u
              Hf Hlines (Forall_nil _) Hu) as (sc & HG & _).
  unfold GetFromFile. rewrite HG. reflexivity.
Qed.


End GetFromFileClaims.

(** ** The program on the inputs of its tests *)

Section Examples.

Import bufio regexp podid main strings.

Local Open Scope string_scope.

(** [TestGetFromFileSuccess], whatever the size of the reads. *)
Example example_GetFromFile_success :
  let content := inputs.bytes (inputs.hosts_line inputs.uuid1 ++ nl) in
  GetFromFile (inputs.file_is "m" content 4096) "m" = Some (inputs.uuid1, None) /\
  GetFromFile (inputs.file_is "m" content 7) "m" = Some (inputs.uuid1, None) /\
  GetFromFile (inputs.file_is "m" content 1) "m" = Some (inputs.uuid1, None).
Proof. repeat split; vm_compute; reflexivity. Qed.

(** [TestGetFromFileNoMatch], and a file that does not exist. *)
Example example_GetFromFile_no_match :
  GetFromFile (inputs.file_is "m" inputs.no_pod 4096) "m" =
    Some ("", Some ErrPodIDNotFound) /\
  GetFromFile (inputs.file_is "m" inputs.no_pod 4096) "n" =
    Some ("", Some (ErrorfW "failed to open n"
                      (ErrPath (mkPathError "open" "n"
                                            "no such file or directory")))).
Proof. split; vm_compute; reflexivity. Qed.

(** [TestGetFromFileHandlesLongLines]: the buffer of 64 KiB has grown. *)
Example example_GetFromFile_long_lines :
  match GetFromFile_scanner
          (inputs.file_is "m" (inputs.long_line ++ [LF])%list 4096) "m" with
  | Some (res, Some sc) => (res, buf_len sc, scans sc)
  | _ => (("", None), 0%Z, 0)
  end = ((inputs.uuid2, None), (128 * 1024)%Z, 1).
Proof. vm_compute. reflexivity. Qed.

(** A read that fails after the last line of a file without match. *)
Example example_GetFromFile_read_error :
  GetFromFile
    (fun _ => inr (os.mkFile inputs.no_pod (fun _ => 16%positive)
                             (Some (mkPathError "read" "m" "input/output error"))))
    "m" =
  Some ("", Some (ErrorfW "error reading m"
                    (ErrPath (mkPathError "read" "m" "input/output error")))).
Proof. vm_compute. reflexivity. Qed.

(** Lines end with a line feed, before which a carriage return is dropped;
    empty lines count, an empty end does not. *)
Example example_lines_of_text :
  lines (inputs.bytes ("a" ++ String CR nl ++ "b" ++ nl ++ nl ++ "c")) =
    ["a"; "b"; ""; "c"] /\
  lines (inputs.bytes ("a" ++ nl)) = ["a"].
Proof. split; vm_compute; reflexivity. Qed.

(** [TrimSpace] knows the white space of Unicode: here U+2003 before and
    U+00A0 after the slash; a lone byte 194 is no white space. *)
Example example_TrimSpace_unicode :
  TrimSpace (String (byte 226) (String (byte 128) (String (byte 131)
            ("/" ++ String (byte 194) (String (byte 160) nl))))) = "/" /\
  TrimSpace (" /docker/abc" ++ nl) = "/docker/abc" /\
  TrimSpace (String (byte 194) "/") = String (byte 194) "/".
Proof. repeat split; vm_compute; reflexivity. Qed.

Example example_Split_cpuset :
  Split "/docker/abc" "/"%char = [""; "docker"; "abc"] /\
  Split "" "/"%char = [""] /\
  Join (Split "/kubepods/burstable/pod1/abc" "/"%char) "/" =
    "/kubepods/burstable/pod1/abc".
Proof. repeat split. Qed.

(** A container under cgroup v1: the identifier is the last segment of the
    path, and the fallback is not called. *)
Example example_getContainerID_docker :
  getContainerID inputs.denied_fallback
                 (mkWorld (inputs.cpuset_is inputs.docker_cpuset) tt 0) =
  Some (("4f2a9c1e7b3d5a6f8e0c1d2b3a4f5e6d7c8b9a0f1e2d3c4b5a6f7e8d9c0b1a2f",
         None),
        mkWorld (inputs.cpuset_is inputs.docker_cpuset) tt 0).
Proof. vm_compute. reflexivity. Qed.

(** [Get] with the provider of the package, in a pod: the second call does
    not read the mount table. *)
Example example_Get_in_pod :
  let fs := inputs.file_is MountInfoPath inputs.one_pod 4096 in
  Gets [getPodIDFromMountInfo; getPodIDFromMountInfo]
       (initial getPodIDFromMountInfo fs) =
  Some ([(inputs.uuid1, None); (inputs.uuid1, None)],
        mkState inputs.uuid1 true sync.zero getPodIDFromMountInfo fs 1).
Proof. vm_compute. reflexivity. Qed.

(** [TestGetDoesNotCacheFailure]. *)
Example example_Get_after_failure :
  Gets [fixtures.flaky fixtures.want2; fixtures.flaky fixtures.want2]
       (initial (fixtures.flaky fixtures.want2) 0) =
  Some ([("", Some ErrPodIDNotFound); (fixtures.want2, None)],
        mkState fixtures.want2 true sync.zero (fixtures.flaky fixtures.want2)
                2 2).
Proof. reflexivity. Qed.

End Examples.

(** ** The theorems at the inputs of the tests *)

Section Witnesses.

Import bufio regexp podid main strings.

Local Open Scope string_scope.

(** [TestGetCachesSuccessfulResult]. *)
Lemma Get_twice_invokes_provider_once_witness :
  mu fixtures.reset = sync.zero /\
  hasID fixtures.reset = false /\
  Get (inject (fixtures.counting fixtures.want1) fixtures.reset) =
    Some ((fixtures.want1, None), fixtures.warm) /\
  Get fixtures.warm = Some ((fixtures.want1, None), fixtures.warm) /\
  calls fixtures.warm = S (calls fixtures.reset) /\
  (forall w : State nat,
      mu w = sync.zero -> hasID w = true ->
      Get w = Some ((cachedID w, None), w)).
Proof.
  split; [reflexivity|]. split; [reflexivity|]. split; [reflexivity|].
  apply (Get_twice_invokes_provider_once
           (fixtures.counting fixtures.want1) fixtures.reset fixtures.warm
           fixtures.want1); reflexivity.
Defined.

(** [TestGetDoesNotCacheFailure]. *)
Lemma Get_failure_is_not_cached_witness :
  mu (initial (fixtures.flaky fixtures.want2) 0) = sync.zero /\
  hasID (initial (fixtures.flaky fixtures.want2) 0) = false /\
  fixtures.flaky fixtures.want2 (env (initial (fixtures.flaky fixtures.want2) 0)) =
    Some (("", Some ErrPodIDNotFound), 1) /\
  exists w1,
    Get (inject (fixtures.flaky fixtures.want2)
                (initial (fixtures.flaky fixtures.want2) 0)) =
      Some (("", Some ErrPodIDNotFound), w1) /\
    cachedID w1 = cachedID (initial (fixtures.flaky fixtures.want2) 0) /\
    hasID w1 = hasID (initial (fixtures.flaky fixtures.want2) 0) /\
    env w1 = 1 /\
    calls w1 = S (calls (initial (fixtures.flaky fixtures.want2) 0)) /\
    (forall g : Provider nat, g 1 = None -> Get (inject g w1) = None) /\
    (forall (g : Provider nat) res w2,
        Get (inject g w1) = Some (res, w2) ->
        calls w2 = S (calls w1) /\
        exists s', g 1 = Some ((s', snd res), env w2)) /\
    (forall (g : Provider nat) v env2,
        g 1 = Some ((v, None), env2) ->
        exists w2,
          Get (inject g w1) = Some ((v, None), w2) /\
          calls w2 = S (S (calls (initial (fixtures.flaky fixtures.want2) 0))) /\
          forall hs : list (Provider nat),
          exists w3,
            Gets hs w2 = Some (repeat (v, None) (List.length hs), w3) /\
            cachedID w3 = v /\ hasID w3 = true /\ calls w3 = calls w2).
Proof.
  split; [reflexivity|]. split; [reflexivity|]. split; [reflexivity|].
  apply (Get_failure_is_not_cached
           (fixtures.flaky fixtures.want2)
           (initial (fixtures.flaky fixtures.want2) 0)
           "" ErrPodIDNotFound 1); reflexivity.
Defined.

(** A failure, a success, and two more calls. *)
Lemma Get_cache_is_monotone_witness :
  Gets [fixtures.flaky fixtures.want2; fixtures.flaky fixtures.want2]
       (initial (fixtures.flaky fixtures.want2) 0) =
    Some ([("", Some ErrPodIDNotFound); (fixtures.want2, None)],
          mkState fixtures.want2 true sync.zero
                  (fixtures.flaky fixtures.want2) 2 2) /\
  hasID (mkState fixtures.want2 true sync.zero
                 (fixtures.flaky fixtures.want2) 2 2) = true /\
  hasID (initial (fixtures.flaky fixtures.want2) 0) = false /\
  exists w2,
    Gets ([fixtures.flaky fixtures.want2; fixtures.flaky fixtures.want2] ++
          [fixtures.flaky fixtures.want2; fixtures.counting fixtures.want1])
         (initial (fixtures.flaky fixtures.want2) 0) =
      Some (([("", Some ErrPodIDNotFound); (fixtures.want2, None)] ++
             repeat (cachedID (mkState fixtures.want2 true sync.zero
                                       (fixtures.flaky fixtures.want2) 2 2),
                     None)
                    (List.length [fixtures.flaky fixtures.want2;
                                  fixtures.counting fixtures.want1]))%list,
            w2) /\
    hasID w2 = true /\
    cachedID w2 = cachedID (mkState fixtures.want2 true sync.zero
                                    (fixtures.flaky fixtures.want2) 2 2) /\
    calls w2 = calls (mkState fixtures.want2 true sync.zero
                              (fixtures.flaky fixtures.want2) 2 2).
Proof.
  split; [reflexivity|]. split; [reflexivity|].
  apply (Get_cache_is_monotone
           (fixtures.flaky fixtures.want2) 0
           [fixtures.flaky fixtures.want2; fixtures.flaky fixtures.want2]
           [fixtures.flaky fixtures.want2; fixtures.counting fixtures.want1]
           [("", Some ErrPodIDNotFound); (fixtures.want2, None)]
           (mkState fixtures.want2 true sync.zero
                    (fixtures.flaky fixtures.want2) 2 2)); reflexivity.
Defined.

(** A provider that returns the empty string and no error. *)
Lemma Get_caches_any_string_witness :
  mu (initial (fixtures.counting "") 0) = sync.zero /\
  hasID (initial (fixtures.counting "") 0) = false /\
  fixtures.counting "" (env (initial (fixtures.counting "") 0)) =
    Some (("", None), 1) /\
  exists w1,
    Get (inject (fixtures.counting "") (initial (fixtures.counting "") 0)) =
      Some (("", None), w1) /\
    cachedID w1 = "" /\ hasID w1 = true /\
    calls w1 = S (calls (initial (fixtures.counting "") 0)) /\
    forall gs : list (Provider nat),
    exists w2,
      Gets gs w1 = Some (repeat ("", None) (List.length gs), w2) /\
      cachedID w2 = "" /\ hasID w2 = true /\
      calls w2 = calls w1 /\ env w2 = 1.
Proof.
  split; [reflexivity|]. split; [reflexivity|]. split; [reflexivity|].
  apply (Get_caches_any_string
           (fixtures.counting "") (initial (fixtures.counting "") 0) "" 1);
    reflexivity.
Defined.

(** A container under cgroup v1. *)
Lemma getContainerID_cgroup_v1_witness :
  os.ReadFile (fs (mkWorld (inputs.cpuset_is inputs.docker_cpuset) tt 0))
              cpusetPath = inr (inputs.bytes inputs.docker_cpuset) /\
  TrimSpace (string_of_list_ascii (inputs.bytes inputs.docker_cpuset)) <> "/" /\
  exists dir seg,
    string_of_list_ascii (inputs.bytes inputs.docker_cpuset) = dir ++ seg /\
    (dir = "" \/ exists d, dir = d ++ "/") /\
    ~ In "/"%char (list_ascii_of_string seg) /\
    getContainerID inputs.denied_fallback
                   (mkWorld (inputs.cpuset_is inputs.docker_cpuset) tt 0) =
      Some ((Replace replacer seg, None),
            mkWorld (inputs.cpuset_is inputs.docker_cpuset) tt 0) /\
    list_ascii_of_string (Replace replacer seg) =
      filter (fun c => negb (Ascii.eqb c LF)) (list_ascii_of_string seg) /\
    (seg <> "" ->
     seg = last_nonempty_segment
             (string_of_list_ascii (inputs.bytes inputs.docker_cpuset))).
Proof.
  split; [reflexivity|]. split; [vm_compute; discriminate|].
  apply (getContainerID_cgroup_v1 unit inputs.denied_fallback
           (mkWorld (inputs.cpuset_is inputs.docker_cpuset) tt 0)
           (inputs.bytes inputs.docker_cpuset));
    [reflexivity|vm_compute; discriminate].
Defined.


(** [TestGetFromFileNoMatch]. *)
Lemma GetFromFile_not_found_witness :
  inputs.file_is "mountinfo" inputs.no_pod 4096 "mountinfo" =
    inr (inputs.file_of inputs.no_pod 4096) /\
  read_completely (inputs.file_of inputs.no_pod 4096) /\
  Forall (fun l => ~ matches_pod l)
         (lines (os.contents (inputs.file_of inputs.no_pod 4096))) /\
  GetFromFile (inputs.file_is "mountinfo" inputs.no_pod 4096) "mountinfo" =
    Some ("", Some ErrPodIDNotFound) /\
  errors.Is ErrPodIDNotFound ErrPodIDNotFound = true /\
  (forall (fs' : os.FS) (path' : string) (e : PathError),
      fs' path' = inl e ->
      exists err,
        GetFromFile fs' path' = Some ("", Some err) /\
        errors.Is err ErrPodIDNotFound = false) /\
  (forall (fs' : os.FS) (path' : string) (f' : os.File) (id : string)
          (err : error),
      fs' path' = inr f' -> ~ read_completely f' ->
      GetFromFile fs' path' = Some (id, Some err) ->
      errors.Is err ErrPodIDNotFound = false).
Proof.
  assert (H1 : read_completely (inputs.file_of inputs.no_pod 4096)).
  { split; [reflexivity|].
    replace (raw_lines (os.contents (inputs.file_of inputs.no_pod 4096)))
      with [inputs.bytes inputs.other_line] by (vm_compute; reflexivity).
    constructor; [vm_compute; reflexivity|constructor]. }
  assert (H2 : Forall (fun l => ~ matches_pod l)
                 (lines (os.contents (inputs.file_of inputs.no_pod 4096)))).
  { replace (lines (os.contents (inputs.file_of inputs.no_pod 4096)))
      with [inputs.other_line] by (vm_compute; reflexivity).
    constructor; [|constructor]. apply no_match_check. vm_compute.
    reflexivity. }
  split; [reflexivity|]. split; [exact H1|]. split; [exact H2|].
  apply (GetFromFile_not_found
           (inputs.file_is "mountinfo" inputs.no_pod 4096) "mountinfo"
           (inputs.file_of inputs.no_pod 4096)); [reflexivity|exact H1|exact H2].
Defined.

(** [TestGetFromFileHandlesLongLines]. *)
Lemma GetFromFile_long_line_witness :
  inputs.file_is "mountinfo" (inputs.long_line ++ [LF])%list 4096 "mountinfo" =
    inr (inputs.file_of (inputs.long_line ++ [LF])%list 4096) /\
  (os.contents (inputs.file_of (inputs.long_line ++ [LF])%list 4096) =
     inputs.long_line \/
   os.contents (inputs.file_of (inputs.long_line ++ [LF])%list 4096) =
     (inputs.long_line ++ [LF])%list) /\
  ~ In LF inputs.long_line /\
  (70 * 1024 < len inputs.long_line < 1024 * 1024)%Z /\
  matches_pod (string_of_list_ascii inputs.long_line) /\
  exists u,
    first_pod (string_of_list_ascii inputs.long_line) u /\
    GetFromFile
      (inputs.file_is "mountinfo" (inputs.long_line ++ [LF])%list 4096)
      "mountinfo" = Some (u, None).
Proof.
  assert (H1 : ~ In LF inputs.long_line).
  { apply not_in_check. vm_compute. reflexivity. }
  assert (H2 : (70 * 1024 < len inputs.long_line < 1024 * 1024)%Z).
  { split; vm_compute; reflexivity. }
  assert (H3 : matches_pod (string_of_list_ascii inputs.long_line)).
  { apply matches_check. vm_compute. reflexivity. }
  split; [reflexivity|]. split; [right; reflexivity|].
  split; [exact H1|]. split; [exact H2|]. split; [exact H3|].
  apply (GetFromFile_long_line
           (inputs.file_is "mountinfo" (inputs.long_line ++ [LF])%list 4096)
           "mountinfo"
           (inputs.file_of (inputs.long_line ++ [LF])%list 4096)
           inputs.long_line);
    [reflexivity|right; reflexivity|exact H1|exact H2|exact H3].
Defined.


End Witnesses.
